(** * Tile copy through shared memory with TMA load and store

    A shallow embedding of [src/tma/tma_copy.h]: the device kernel
    [copyTMAKernel] and the host driver
    [copy_host_tma_load_and_store_kernel].

    The kernel is embedded as the instruction sequence each thread issues,
    in program order, together with an executable semantics of one thread
    block over its shared storage (staging tile and transaction barrier)
    and the two global buffers.  The host driver is embedded as a function
    of its template arguments, its arguments and the answers of the CUDA
    runtime. *)

From Stdlib Require Import ZArith Lia List String Bool.
From stdpp Require Import base list.
Import ListNotations.

Local Open Scope Z_scope.

(** ** Machine integers *)

(** [int] is 32 bits wide; arithmetic on it is written with its wrap-around.
    [/] on [int] truncates towards zero; it has no result when the divisor
    is zero or the quotient does not fit, the program is then stopped by
    the processor's trap: [div] is its value in all other cases and
    [div_traps] says when there is none. *)
Module Int32.
Definition max_signed : Z := 2 ^ 31 - 1.
Definition min_signed : Z := - 2 ^ 31.
Definition wrap (x : Z) : Z := (x + 2 ^ 31) mod 2 ^ 32 - 2 ^ 31.
Definition add (a b : Z) : Z := wrap (a + b).
Definition sub (a b : Z) : Z := wrap (a - b).
Definition mul (a b : Z) : Z := wrap (a * b).
Definition div (a b : Z) : Z := wrap (Z.quot a b).
Definition div_traps (a b : Z) : bool :=
  (b =? 0) || ((a =? min_signed) && (b =? -1)).
Definition in_range (x : Z) : Prop := min_signed <= x <= max_signed.
End Int32.

(** Conversion of an [int] to [unsigned int] (the fields of [dim3]). *)
Definition to_unsigned (x : Z) : Z := x mod 2 ^ 32.

(** [cute::ceil_div] on two integers: [(a + b - 1) / b]. *)
Definition ceil_div (a b : Z) : Z :=
  Int32.div (Int32.sub (Int32.add a b) 1) b.

(** The division of [ceil_div] traps. *)
Definition ceil_div_traps (a b : Z) : bool :=
  Int32.div_traps (Int32.sub (Int32.add a b) 1) b.

(** ** Elements *)

(** [using Element = float].  Every value the program stores is zero or
    the conversion of an index, a non-negative integer, and the program
    only moves and compares them: an element is modelled by the integer it
    denotes. *)
Abbreviation Element := Z (only parsing).

Definition sizeof_Element : Z := 4.

(** [float(i)] for a [size_t] index: round to nearest, ties to even, on a
    significand of 24 bits. *)
Definition float_of_size_t (i : Z) : Element :=
  if i <? 2 ^ 24 then i
  else
    let sh := Z.log2 i - 23 in
    let q := Z.shiftr i sh in
    let r := Z.land i (2 ^ sh - 1) in
    let half := 2 ^ (sh - 1) in
    let q' := if (half <? r) || ((r =? half) && Z.odd q) then q + 1 else q in
    Z.shiftl q' sh.

(** ** CUDA runtime and launch types *)

(** [cudaError]: the runtime's error code; [cudaSuccess] is 0. *)
Abbreviation cudaError := Z (only parsing).
Definition cudaSuccess : cudaError := 0.

(** [cutlass::Status], as far as [launch_kernel_on_cluster] returns it. *)
Inductive Status := kSuccess | kErrorInternal.

Definition Status_eqb (a b : Status) : bool :=
  match a, b with
  | kSuccess, kSuccess | kErrorInternal, kErrorInternal => true
  | _, _ => false
  end.

Record dim3 := { dim_x : Z; dim_y : Z; dim_z : Z }.

(** [dim3(x, y)]: missing components default to 1. *)
Definition make_dim3 (x y : Z) : dim3 :=
  {| dim_x := to_unsigned x; dim_y := to_unsigned y; dim_z := 1 |}.

(** [cutlass::ClusterLaunchParams]. *)
Record ClusterLaunchParams := {
  grid_dims : dim3;
  block_dims : dim3;
  cluster_dims : dim3;
  smem_size_in_bytes : Z
}.

(** ** Device memory and the copy plan *)

(** The two device vectors. *)
Inductive Buffer := BufS | BufD.

Record Gmem := { d_S : list Element; d_D : list Element }.

Definition read_buffer (g : Gmem) (b : Buffer) : list Element :=
  match b with BufS => d_S g | BufD => d_D g end.

Definition write_buffer (g : Gmem) (b : Buffer) (l : list Element) : Gmem :=
  match b with
  | BufS => {| d_S := l; d_D := d_D g |}
  | BufD => {| d_S := d_S g; d_D := l |}
  end.

(** What [make_tma_copy] records of a global tensor and a shared-memory
    layout: the buffer, the row-major global shape (rows, columns) and the
    box moved by one copy (the shape of the shared-memory layout). *)
Record TmaDescriptor := {
  tma_buffer : Buffer;
  tma_gshape : nat * nat;
  tma_box : nat * nat
}.

(** [struct Params]. *)
Record Params := {
  tmaLoad : TmaDescriptor;
  tmaStore : TmaDescriptor;
  gmemLayout : nat * nat;
  smemLayout : nat * nat;
  tileShape : nat * nat
}.

(** [size(layout)]: the number of elements of a layout. *)
Definition layout_size (l : nat * nat) : nat := (l.1 * l.2)%nat.

(** ** Shared storage *)

(** State of the transaction barrier ([ClusterTransactionBarrier], one
    [uint64_t]): the arrival count given at [init], the arrivals and the
    transaction bytes still pending in the current phase, and the parity
    of the current phase. *)
Record Barrier := {
  bar_count : Z;
  bar_pending : Z;
  bar_tx : Z;
  bar_phase : bool
}.

(** [SharedStorageTMA<Element, SmemLayout>]: the staging tile and the
    barrier. *)
Record SharedStorage := {
  smem : list Element;
  mbarrier : Barrier
}.

(** A phase completes when no arrival and no transaction byte is pending:
    the parity flips and the pending arrivals are reloaded. *)
Definition bar_settle (b : Barrier) : Barrier :=
  if (bar_pending b =? 0) && (bar_tx b =? 0)
  then {| bar_count := bar_count b; bar_pending := bar_count b;
          bar_tx := 0; bar_phase := negb (bar_phase b) |}
  else b.

Definition bar_init (count : Z) : Barrier :=
  {| bar_count := count; bar_pending := count; bar_tx := 0;
     bar_phase := false |}.

Definition bar_arrive_and_expect_tx (bytes : Z) (b : Barrier) : Barrier :=
  bar_settle {| bar_count := bar_count b; bar_pending := bar_pending b - 1;
                bar_tx := bar_tx b + bytes; bar_phase := bar_phase b |}.

(** The copy engine reports [bytes] delivered. *)
Definition bar_complete_tx (bytes : Z) (b : Barrier) : Barrier :=
  bar_settle {| bar_count := bar_count b; bar_pending := bar_pending b;
                bar_tx := bar_tx b - bytes; bar_phase := bar_phase b |}.

(** [wait(phase)] returns once the phase of parity [phase] has completed,
    that is, once the barrier is in the other parity. *)
Definition bar_phase_done (phase : bool) (b : Barrier) : bool :=
  negb (Bool.eqb (bar_phase b) phase).

(** ** The bulk-copy engine *)

(** [local_tile(m, tileShape, blkCoord)]: the element coordinate at which
    the tile of block [blkCoord] starts. *)
Definition local_tile (tile blk : nat * nat) : nat * nat :=
  ((blk.1 * tile.1)%nat, (blk.2 * tile.2)%nat).

(** The global coordinate of element [k] of a box placed at [origin]; the
    box is row-major in shared memory. *)
Definition box_coord (box origin : nat * nat) (k : nat) : nat * nat :=
  ((origin.1 + k / box.2)%nat, (origin.2 + k mod box.2)%nat).

Definition in_bounds (gshape ij : nat * nat) : bool :=
  (ij.1 <? gshape.1)%nat && (ij.2 <? gshape.2)%nat.

(** Offset of a coordinate in a row-major buffer ([LayoutRight]). *)
Definition offset_of (gshape ij : nat * nat) : nat :=
  (ij.1 * gshape.2 + ij.2)%nat.

(** One TMA load: the box at [origin] of a row-major buffer of shape
    [gshape].  Coordinates outside the global shape read as zero. *)
Definition tma_load_tile (buf : list Element) (gshape box origin : nat * nat)
  : list Element :=
  (fun k : nat =>
     let ij := box_coord box origin k in
     if in_bounds gshape ij
     then default 0 (buf !! offset_of gshape ij)
     else 0) <$> seq 0 (layout_size box).

(** Where a store puts element [k] of the box; elements whose coordinates
    fall outside the global shape are not written. *)
Definition store_target (gshape box origin : nat * nat) (k : nat)
  : option nat :=
  let ij := box_coord box origin k in
  if in_bounds gshape ij then Some (offset_of gshape ij) else None.

Definition tma_store_elem (tile : list Element) (gshape box origin : nat * nat)
  (buf : list Element) (k : nat) : list Element :=
  match store_target gshape box origin k with
  | Some p => <[p := default 0 (tile !! k)]> buf
  | None => buf
  end.

(** One TMA store: the box in shared memory written at [origin]. *)
Definition tma_store_tile (tile : list Element) (gshape box origin : nat * nat)
  (buf : list Element) : list Element :=
  foldl (tma_store_elem tile gshape box origin) buf (seq 0 (layout_size box)).

(** Bytes one copy of a box moves. *)
Definition tma_box_bytes (box : nat * nat) : Z :=
  sizeof_Element * Z.of_nat (layout_size box).

(** The offsets of a buffer that one store at [origin] writes. *)
Definition store_footprint (gshape box origin : nat * nat) : list nat :=
  omap (store_target gshape box origin) (seq 0 (layout_size box)).

(** The offsets the block at [blk] stores to, for an array of [R] by [C]
    cut into tiles of [TR] by [TC]. *)
Definition block_footprint (R C TR TC : nat) (blk : nat * nat) : list nat :=
  store_footprint (R, C) (TR, TC) (local_tile (TR, TC) blk).

(** The block an offset belongs to. *)
Definition block_of (C TR TC : nat) (p : nat) : nat * nat :=
  ((p / C / TR)%nat, (p mod C / TC)%nat).

(** The bytes of a buffer that hold the element at offset [p]. *)
Definition elem_bytes (p : nat) : list Z :=
  (fun b : nat => sizeof_Element * Z.of_nat p + Z.of_nat b)
    <$> seq 0 (Z.to_nat sizeof_Element).

(** ** The kernel *)

(** What a thread of the kernel issues.
    - [CopyTmaLoad] is [copy(tmaLoad.with(mbarrier), ...)]: a load of one
      box into the staging tile that reports its bytes to the block's
      barrier when it lands;
    - [CopyTmaStore] is [cute::copy(tmaStore, ...)]: a store of the staging
      tile, bound to no barrier;
    - [TmaStoreArrive] and [TmaStoreWait] are [cute::tma_store_arrive] and
      [cute::tma_store_wait], the completion protocol of the store
      direction. *)
Inductive Instr :=
  | PrefetchTmaDescriptor (d : TmaDescriptor)
  | MbarrierInit (arrive_count : Z)
  | MbarrierArriveAndExpectTx (bytes : Z)
  | CopyTmaLoad (d : TmaDescriptor) (origin : nat * nat)
  | SyncThreads
  | MbarrierWait (phase : bool)
  | FenceViewAsyncShared
  | CopyTmaStore (d : TmaDescriptor) (origin : nat * nat)
  | TmaStoreArrive
  | TmaStoreWait (pending : nat).

(** [cutlass::canonical_warp_idx_sync()]. *)
Definition canonical_warp_idx_sync (threadIdx : nat) : nat :=
  (threadIdx / 32)%nat.

(** [cute::elect_one_sync()]: true in one lane of each warp, the same one
    at every call; the lowest lane is taken. *)
Definition elect_one_sync (threadIdx : nat) : bool :=
  (threadIdx mod 32 =? 0)%nat.

Definition round_up (x a : Z) : Z := (x + a - 1) / a * a.

Section Platform.

(** Alignment, in bytes, of the array inside [cute::ArrayEngine]
    (cute/tensor.hpp, outside this repository). *)
Variable storage_align : Z.

(** Bytes [SharedStorageTMA] takes besides the tile. *)
Variable barrier_overhead : Z.

(** The runtime's table of error messages. *)
Variable cudaGetErrorString : cudaError -> string.

(** [sizeof(ArrayEngine<Element, n>)]: [n] elements in an array aligned to
    [storage_align] bytes. *)
Definition sizeof_ArrayEngine (n : nat) : Z :=
  round_up (sizeof_Element * Z.of_nat n) storage_align.

(** Modelled from the spec: [SharedStorageTMA] is declared in
    shared_storage.h, which is not among the sources; the spec gives its
    size as [sizeof(element) * tileRows * tileCols] plus a fixed barrier
    overhead. *)
Definition sizeof_SharedStorageTMA (layout : nat * nat) : Z :=
  sizeof_Element * Z.of_nat (layout_size layout) + barrier_overhead.

(** [constexpr int kTmaTransactionBytes]. *)
Definition kTmaTransactionBytes (params : Params) : Z :=
  Int32.wrap (sizeof_ArrayEngine (layout_size (smemLayout params))).

(** [copyTMAKernel]: the instructions of thread [threadIdx] of block
    [blockIdx], in program order. *)
Definition copyTMAKernel (params : Params) (blockIdx : nat * nat)
  (threadIdx : nat) : list Instr :=
  let warp_idx := canonical_warp_idx_sync threadIdx in
  let lane_predicate := elect_one_sync threadIdx in
  (if (warp_idx =? 0)%nat && lane_predicate
   then [PrefetchTmaDescriptor (tmaLoad params);
         PrefetchTmaDescriptor (tmaStore params)]
   else [])
  ++
  let blkCoord := blockIdx in
  let gS := local_tile (tileShape params) blkCoord in
  (if (warp_idx =? 0)%nat && lane_predicate
   then [MbarrierInit 1;
         MbarrierArriveAndExpectTx (kTmaTransactionBytes params);
         CopyTmaLoad (tmaLoad params) gS]
   else [])
  ++
  [SyncThreads; MbarrierWait false; FenceViewAsyncShared]
  ++
  let gD := local_tile (tileShape params) blkCoord in
  (if (warp_idx =? 0)%nat && lane_predicate
   then [CopyTmaStore (tmaStore params) gD]
   else []).

(** ** Execution of one thread block *)

(** A load the engine has accepted and not yet delivered. *)
Record Inflight := { fl_data : list Element; fl_bytes : Z }.

Record BlockState := {
  shared : SharedStorage;
  inflight : list Inflight;
  gmem : Gmem
}.

(** The engine delivers a load: the tile lands at the start of the staging
    array and the barrier is told the bytes. *)
Definition deliver (s : SharedStorage) (f : Inflight) : SharedStorage :=
  {| smem := fl_data f ++ drop (length (fl_data f)) (smem s);
     mbarrier := bar_complete_tx (fl_bytes f) (mbarrier s) |}.

(** One instruction on the block's state; [None] when the thread never
    gets past it.  A load is handed to the engine when it is issued and is
    delivered by the time a wait on the barrier returns. *)
Definition exec_instr (i : Instr) (st : BlockState) : option BlockState :=
  match i with
  | PrefetchTmaDescriptor _ => Some st
  | MbarrierInit c =>
      Some {| shared := {| smem := smem (shared st); mbarrier := bar_init c |};
              inflight := inflight st; gmem := gmem st |}
  | MbarrierArriveAndExpectTx bytes =>
      Some {| shared := {| smem := smem (shared st);
                           mbarrier := bar_arrive_and_expect_tx bytes
                                         (mbarrier (shared st)) |};
              inflight := inflight st; gmem := gmem st |}
  | CopyTmaLoad d origin =>
      let data := tma_load_tile (read_buffer (gmem st) (tma_buffer d))
                    (tma_gshape d) (tma_box d) origin in
      Some {| shared := shared st;
              inflight := inflight st ++
                          [{| fl_data := data;
                              fl_bytes := tma_box_bytes (tma_box d) |}];
              gmem := gmem st |}
  | SyncThreads => Some st
  | MbarrierWait phase =>
      let s := foldl deliver (shared st) (inflight st) in
      if bar_phase_done phase (mbarrier s)
      then Some {| shared := s; inflight := []; gmem := gmem st |}
      else None
  | FenceViewAsyncShared => Some st
  | CopyTmaStore d origin =>
      let tile := take (layout_size (tma_box d)) (smem (shared st)) in
      Some {| shared := shared st; inflight := inflight st;
              gmem := write_buffer (gmem st) (tma_buffer d)
                        (tma_store_tile tile (tma_gshape d) (tma_box d) origin
                           (read_buffer (gmem st) (tma_buffer d))) |}
  | TmaStoreArrive => Some st
  | TmaStoreWait _ => Some st
  end.

Fixpoint run_instrs (p : list Instr) (st : BlockState) : option BlockState :=
  match p with
  | [] => Some st
  | i :: p' => st' ← exec_instr i st; run_instrs p' st'
  end.

Fixpoint run_threads (ps : list (list Instr)) (st : BlockState)
  : option BlockState :=
  match ps with
  | [] => Some st
  | p :: ps' => st' ← run_instrs p st; run_threads ps' st'
  end.

(** The part of a thread's program before and after [__syncthreads()]. *)
Fixpoint before_sync (p : list Instr) : list Instr :=
  match p with
  | [] => []
  | SyncThreads :: _ => []
  | i :: p' => i :: before_sync p'
  end.

Fixpoint after_sync (p : list Instr) : list Instr :=
  match p with
  | [] => []
  | SyncThreads :: p' => p'
  | _ :: p' => after_sync p'
  end.

(** A block of [nthreads] threads: every thread runs up to
    [__syncthreads()], then every thread runs the rest.  [residue] is what
    the shared storage holds when the block starts. *)
Definition run_block (nthreads : nat) (params : Params)
  (residue : SharedStorage) (blockIdx : nat * nat) (g : Gmem) : option Gmem :=
  let progs := copyTMAKernel params blockIdx <$> seq 0 nthreads in
  st1 ← run_threads (before_sync <$> progs)
          {| shared := residue; inflight := []; gmem := g |};
  st2 ← run_threads (after_sync <$> progs) st1;
  Some (gmem st2).

(** The blocks of a grid of [gx] by [gy]. *)
Definition grid_blocks (gx gy : nat) : list (nat * nat) :=
  list_prod (seq 0 gx) (seq 0 gy).

Fixpoint run_blocks (nthreads : nat) (params : Params)
  (residue : nat * nat -> SharedStorage) (blocks : list (nat * nat))
  (g : Gmem) : option Gmem :=
  match blocks with
  | [] => Some g
  | b :: bs =>
      g' ← run_block nthreads params (residue b) b g;
      run_blocks nthreads params residue bs g'
  end.

(** ** Shapes the model covers *)

(** Extents the driver's [int] arithmetic handles without overflow: the
    element count [M * N] and the sums inside the two [ceil_div]. *)
Definition shape_ok (TILE_M TILE_N M N : Z) : Prop :=
  1 <= TILE_M /\ 1 <= TILE_N /\ 0 <= M /\ 0 <= N /\
  M * N <= Int32.max_signed /\
  M + TILE_M <= Int32.max_signed /\ N + TILE_N <= Int32.max_signed.

(** The staging array has no padding: the bytes of a tile are a multiple
    of the array's alignment (and fit an [int]). *)
Definition staging_ok (TILE_M TILE_N : Z) : Prop :=
  1 <= storage_align /\
  (sizeof_Element * (TILE_M * TILE_N)) mod storage_align = 0 /\
  sizeof_Element * (TILE_M * TILE_N) <= Int32.max_signed.

(** ** The device, as the host sees it *)

(** The answers of the runtime and the device to the [i]-th pass of the
    launch loop: whether the runtime takes the launch, what
    [cudaDeviceSynchronize] reports, and what the shared storage of each
    block holds when the block starts. *)
Record Device := {
  launch_status : nat -> Status;
  sync_result : nat -> cudaError;
  smem_residue : nat -> nat * nat -> SharedStorage
}.

(** A launch runs when the runtime takes it; an empty grid or an empty
    block is never taken. *)
Definition launch_accepted (dev : Device) (i : nat) (lp : ClusterLaunchParams)
  : bool :=
  Status_eqb (launch_status dev i) kSuccess
  && (1 <=? dim_x (grid_dims lp)) && (1 <=? dim_y (grid_dims lp))
  && (1 <=? dim_z (grid_dims lp)) && (1 <=? dim_x (block_dims lp)).

Definition launch_blocks (lp : ClusterLaunchParams) : list (nat * nat) :=
  grid_blocks (Z.to_nat (dim_x (grid_dims lp))) (Z.to_nat (dim_y (grid_dims lp))).

(** [cutlass::launch_kernel_on_cluster] followed by the completion of the
    grid: the status the call returns and the device memory once every
    block has finished ([None] when some block never finishes). *)
Definition launch_kernel_on_cluster (dev : Device) (i : nat)
  (lp : ClusterLaunchParams) (params : Params) (g : Gmem)
  : Status * option Gmem :=
  if launch_accepted dev i lp
  then (kSuccess,
        run_blocks (Z.to_nat (dim_x (block_dims lp))) params
          (smem_residue dev i) (launch_blocks lp) g)
  else (kErrorInternal, Some g).

(** ** The host driver *)

(** What the driver prints.  The time and the throughput of a trial are
    left out of [OutTrial]. *)
Inductive Output :=
  | OutBanner
  | OutSmemSize (bytes : Z)
  | OutTrial (i : Z)
  | OutSummary (good bad : Z)
  | ErrCudaRuntime (msg : string).

Record LoopState := {
  ls_output : list Output;
  ls_launches : nat;
  ls_units : nat;
  ls_gmem : Gmem
}.

Inductive LoopExit :=
  | LoopDone (s : LoopState)
  | LoopReturn (code : Z) (s : LoopState)
  | LoopHung.

(** [for (int i = 0; i < iterations; i++)]: [n] passes are left and [i] is
    the counter.  The status of the launch is not looked at. *)
Fixpoint launch_loop (dev : Device) (lp : ClusterLaunchParams)
  (params : Params) (n i : nat) (s : LoopState) : LoopExit :=
  match n with
  | O => LoopDone s
  | S n' =>
      let '(status, g) := launch_kernel_on_cluster dev i lp params (ls_gmem s) in
      match g with
      | None => LoopHung
      | Some g' =>
          let result := sync_result dev i in
          let units :=
            if launch_accepted dev i lp then length (launch_blocks lp)
            else O in
          if negb (result =? cudaSuccess)
          then LoopReturn (-1)
                 {| ls_output :=
                      ls_output s ++ [ErrCudaRuntime (cudaGetErrorString result)];
                    ls_launches := S (ls_launches s);
                    ls_units := (ls_units s + units)%nat;
                    ls_gmem := g' |}
          else launch_loop dev lp params n' (S i)
                 {| ls_output := ls_output s ++ [OutTrial (Z.of_nat i)];
                    ls_launches := S (ls_launches s);
                    ls_units := (ls_units s + units)%nat;
                    ls_gmem := g' |}
      end
  end.

(** Device memory after the launch of pass [k], when an accepted launch
    turns memory [g] into [F g]. *)
Definition launch_effect (dev : Device) (lp : ClusterLaunchParams)
  (F : Gmem -> Gmem) (g : Gmem) (k : nat) : Gmem :=
  if launch_accepted dev k lp then F g else g.

(** The lines the passes [ks] print. *)
Definition trial_lines (ks : list nat) : list Output :=
  (fun k : nat => OutTrial (Z.of_nat k)) <$> ks.

(** The blocks the passes [ks] run. *)
Definition units_of (dev : Device) (lp : ClusterLaunchParams) (ks : list nat)
  : nat :=
  (length (List.filter (fun k => launch_accepted dev k lp) ks)
   * length (launch_blocks lp))%nat.

(** The verification pass: counts of equal and of different elements.
    [==] on [float] is equality on the values the driver compares, the
    conversions of indices. *)
Definition verify (h_D h_S : list Element) : Z * Z :=
  foldl (fun (gb : Z * Z) (i : nat) =>
           if default 0 (h_D !! i) =? default 0 (h_S !! i)
           then (Int32.add gb.1 1, gb.2)
           else (gb.1, Int32.add gb.2 1))
        (0, 0) (seq 0 (length h_D)).

(** What a call of the driver leaves behind when it returns. *)
Record HostRun := {
  status : Z;
  output : list Output;
  launches : nat;
  units_run : nat;
  h_S : list Element;
  h_D : list Element;
  device : Gmem
}.

(** A call returns, or leaves by the exception of a failed allocation, or
    is stopped by the trap of an integer division, or never returns. *)
Inductive Outcome :=
  | Returned (r : HostRun)
  | Threw
  | Trapped
  | Hung.

(** [for (size_t i = 0; i < h_S.size(); ++i) h_S[i] = float(i)]. *)
Definition init_source (size : nat) : list Element :=
  (fun i : nat => float_of_size_t (Z.of_nat i)) <$> seq 0 size.

(** The copy plan the driver builds. *)
Definition make_params (TILE_M TILE_N M N : Z) : Params :=
  let tensor_shape := (Z.to_nat M, Z.to_nat N) in
  let gmemLayoutS := tensor_shape in
  let gmemLayoutD := tensor_shape in
  let tileShape := (Z.to_nat TILE_M, Z.to_nat TILE_N) in
  let smemLayout := tileShape in
  let tma_load :=
    {| tma_buffer := BufS; tma_gshape := gmemLayoutS; tma_box := smemLayout |} in
  let tma_store :=
    {| tma_buffer := BufD; tma_gshape := gmemLayoutD; tma_box := smemLayout |} in
  {| tmaLoad := tma_load; tmaStore := tma_store; gmemLayout := gmemLayoutS;
     smemLayout := smemLayout; tileShape := tileShape |}.

(** The launch configuration the driver builds. *)
Definition make_launch_params (TILE_M TILE_N THREADS M N : Z)
  : ClusterLaunchParams :=
  let gridDim := make_dim3 (ceil_div M TILE_M) (ceil_div N TILE_N) in
  let blockDim := make_dim3 THREADS 1 in
  let smem_size :=
    Int32.wrap (sizeof_SharedStorageTMA (Z.to_nat TILE_M, Z.to_nat TILE_N)) in
  let cluster_dims := make_dim3 1 1 in
  {| grid_dims := gridDim; block_dims := blockDim;
     cluster_dims := cluster_dims; smem_size_in_bytes := smem_size |}.

(** [copy_host_tma_load_and_store_kernel<TILE_M, TILE_N, THREADS>(M, N,
    iterations)].  A [host_vector] of negative size cannot be allocated.
    The two divisions of [dim3 gridDim(ceil_div(M, TILE_M), ceil_div(N,
    TILE_N))] come after the allocations and before the first launch; a
    division by a tile extent of zero stops the program there.
    [make_tma_copy] is CuTe's and the driver does not look at what it
    answers: the descriptors are taken as built.
    [cfk::utils::set_smem_size] only raises the kernel's limit of dynamic
    shared memory and leaves no trace here. *)
Definition copy_host_tma_load_and_store_kernel (TILE_M TILE_N THREADS : Z)
  (M N iterations : Z) (dev : Device) : Outcome :=
  let size := Int32.mul M N in
  if size <? 0 then Threw
  else if ceil_div_traps M TILE_M || ceil_div_traps N TILE_N then Trapped
  else
    let h_S0 : list Element := replicate (Z.to_nat size) 0 in
    let h_D0 : list Element := replicate (Z.to_nat size) 0 in
    let h_S1 := init_source (length h_S0) in
    let g0 := {| d_S := h_S1; d_D := h_D0 |} in
    let params := make_params TILE_M TILE_N M N in
    let launch_params := make_launch_params TILE_M TILE_N THREADS M N in
    let s0 :=
      {| ls_output := [OutBanner; OutSmemSize (smem_size_in_bytes launch_params)];
         ls_launches := O; ls_units := O; ls_gmem := g0 |} in
    match launch_loop dev launch_params params (Z.to_nat iterations) O s0 with
    | LoopHung => Hung
    | LoopReturn code s =>
        Returned {| status := code; output := ls_output s;
                    launches := ls_launches s; units_run := ls_units s;
                    h_S := h_S1; h_D := h_D0; device := ls_gmem s |}
    | LoopDone s =>
        let h_D1 := d_D (ls_gmem s) in
        let gb := verify h_D1 h_S1 in
        Returned {| status := 0;
                    output := ls_output s ++ [OutSummary gb.1 gb.2];
                    launches := ls_launches s; units_run := ls_units s;
                    h_S := h_S1; h_D := h_D1; device := ls_gmem s |}
    end.

(** ** Reading a thread's program *)

Definition is_init (i : Instr) : bool :=
  match i with MbarrierInit _ => true | _ => false end.
Definition is_arm (i : Instr) : bool :=
  match i with MbarrierArriveAndExpectTx _ => true | _ => false end.
Definition is_load (i : Instr) : bool :=
  match i with CopyTmaLoad _ _ => true | _ => false end.
Definition is_wait (i : Instr) : bool :=
  match i with MbarrierWait _ => true | _ => false end.
Definition is_fence (i : Instr) : bool :=
  match i with FenceViewAsyncShared => true | _ => false end.
Definition is_store (i : Instr) : bool :=
  match i with CopyTmaStore _ _ => true | _ => false end.
Definition is_store_completion (i : Instr) : bool :=
  match i with TmaStoreArrive | TmaStoreWait _ => true | _ => false end.

(** In program [l], every instruction of kind [P] comes strictly before
    every instruction of kind [Q]. *)
Definition strictly_before (P Q : Instr -> bool) (l : list Instr) : Prop :=
  forall i j a b,
    l !! i = Some a -> l !! j = Some b -> P a = true -> Q b = true ->
    (i < j)%nat.

(** The same, computed: from an instruction of kind [Q] on, none is of
    kind [P]. *)
Fixpoint strictly_beforeb (P Q : Instr -> bool) (l : list Instr) : bool :=
  match l with
  | [] => true
  | a :: l' =>
      (negb (Q a) || forallb (fun b => negb (P b)) l)
      && strictly_beforeb P Q l'
  end.

(** What follows the first instruction of kind [P]. *)
Fixpoint after_first (P : Instr -> bool) (l : list Instr) : list Instr :=
  match l with
  | [] => []
  | a :: l' => if P a then l' else after_first P l'
  end.

(** ** Notions of the specification *)

(** [ceil(a / b)]. *)
Definition ceiling (a b : Z) : Z := - ((- a) / b).

(** Round-trip identity: a call that returns status 0 leaves the
    destination buffer equal to the source buffer. *)
Definition round_trip (o : Outcome) : Prop :=
  forall r, o = Returned r -> status r = 0 -> d_D (device r) = d_S (device r).


(** The bytes of the destination the block at [blk] stores to. *)
Definition footprint_bytes (R C TR TC : nat) (blk : nat * nat) : list Z :=
  concat (elem_bytes <$> block_footprint R C TR TC blk).

(** Between launches the source holds the indices and the destination has
    the size of the source. *)
Definition covered_inv (size : nat) (g : Gmem) : Prop :=
  d_S g = init_source size /\ length (d_D g) = size.

(** An accepted launch fills the destination with the source. *)
Definition copied (g : Gmem) : Gmem := {| d_S := d_S g; d_D := d_S g |}.

(** ** Sample devices *)

Definition no_residue : SharedStorage :=
  {| smem := []; mbarrier := bar_init 0 |}.

(** What a block of an earlier launch leaves in its shared storage. *)
Definition stale_residue : SharedStorage :=
  {| smem := [7; 7; 7; 7; 7; 7; 7; 7];
     mbarrier := {| bar_count := 1; bar_pending := 1; bar_tx := 0;
                    bar_phase := true |} |}.

(** Every launch is taken and every synchronization succeeds. *)
Definition device_ok : Device :=
  {| launch_status := fun _ => kSuccess;
     sync_result := fun _ => cudaSuccess;
     smem_residue := fun _ _ => no_residue |}.

Definition device_stale : Device :=
  {| launch_status := fun _ => kSuccess;
     sync_result := fun _ => cudaSuccess;
     smem_residue := fun _ _ => stale_residue |}.

(** The synchronization of pass [m] reports [code]. *)
Definition device_fault_at (m : nat) (code : cudaError) : Device :=
  {| launch_status := fun _ => kSuccess;
     sync_result := fun k => if (k =? m)%nat then code else cudaSuccess;
     smem_residue := fun _ _ => no_residue |}.

Definition sample_error_string (e : cudaError) : string :=
  if e =? 0 then "no error"%string else "unspecified launch failure"%string.

(** ** Summaries of the kernel and of the driver's output *)

(** What one block does to global memory: the load of its box followed by
    the store of the same box. *)
Definition block_copy (params : Params) (blk : nat * nat) (g : Gmem) : Gmem :=
  write_buffer g (tma_buffer (tmaStore params))
    (tma_store_tile
       (tma_load_tile (read_buffer g (tma_buffer (tmaLoad params)))
          (tma_gshape (tmaLoad params)) (tma_box (tmaLoad params))
          (local_tile (tileShape params) blk))
       (tma_gshape (tmaStore params)) (tma_box (tmaStore params))
       (local_tile (tileShape params) blk)
       (read_buffer g (tma_buffer (tmaStore params)))).

(** The blocks of a list, one after another. *)
Definition grid_copy (params : Params) (blocks : list (nat * nat)) (g : Gmem)
  : Gmem :=
  foldl (fun g b => block_copy params b g) g blocks.

(** The programs of the threads of one block. *)
Definition block_programs (params : Params) (blk : nat * nat) (nthreads : nat)
  : list (list Instr) :=
  copyTMAKernel params blk <$> seq 0 nthreads.

(** How many instructions of kind [P] the threads issue together. *)
Definition issued (P : Instr -> bool) (progs : list (list Instr)) : nat :=
  length (List.filter P (concat progs)).

Definition is_prefetch (i : Instr) : bool :=
  match i with PrefetchTmaDescriptor _ => true | _ => false end.
Definition is_sync (i : Instr) : bool :=
  match i with SyncThreads => true | _ => false end.

(** The first two lines the driver prints. *)
Definition header_lines (TILE_M TILE_N THREADS M N : Z) : list Output :=
  [OutBanner;
   OutSmemSize (smem_size_in_bytes
                  (make_launch_params TILE_M TILE_N THREADS M N))].

(** The offsets the blocks of a list store to, block after block. *)
Definition grid_footprint (R C TR TC : nat) (blocks : list (nat * nat))
  : list nat :=
  concat (block_footprint R C TR TC <$> blocks).

(** The element stores one TMA store performs, in its order: the offset
    stored to and the value stored there. *)
Definition store_writes (tile : list Element) (gshape box origin : nat * nat)
  : list (nat * Element) :=
  omap (fun k : nat =>
          (fun p : nat => (p, default 0 (tile !! k)))
            <$> store_target gshape box origin k)
       (seq 0 (layout_size box)).

(** Element stores done one after another on a buffer. *)
Definition apply_writes (ws : list (nat * Element)) (buf : list Element)
  : list Element :=
  foldl (fun b (w : nat * Element) => <[w.1 := w.2]> b) buf ws.

(** The element stores of the block at [blk]: those of the store of the
    box it has loaded. *)
Definition block_writes (params : Params) (blk : nat * nat) (g : Gmem)
  : list (nat * Element) :=
  store_writes
    (tma_load_tile (read_buffer g (tma_buffer (tmaLoad params)))
       (tma_gshape (tmaLoad params)) (tma_box (tmaLoad params))
       (local_tile (tileShape params) blk))
    (tma_gshape (tmaStore params)) (tma_box (tmaStore params))
    (local_tile (tileShape params) blk).

(** The element stores of the blocks of a list, block after block. *)
Definition grid_writes (params : Params) (blocks : list (nat * nat)) (g : Gmem)
  : list (nat * Element) :=
  concat ((fun blk => block_writes params blk g) <$> blocks).

(** A value that is the conversion of an index to [float]: such a value
    is a number and is not a negative zero, and [==] on two of them is
    equality. *)
Definition is_index_float (x : Element) : Prop :=
  exists i : nat, x = float_of_size_t (Z.of_nat i).

(** * Properties *)

(** ** Integer arithmetic *)

Lemma wrap_in_range x : Int32.in_range x -> Int32.wrap x = x.
Proof.
  unfold Int32.in_range, Int32.wrap, Int32.min_signed, Int32.max_signed.
  intros H. rewrite Z.mod_small; lia.
Qed.

Lemma to_unsigned_small x : 0 <= x <= Int32.max_signed -> to_unsigned x = x.
Proof.
  unfold to_unsigned, Int32.max_signed. intros H. apply Z.mod_small. lia.
Qed.

(** With tile extents of at least 1 the divisions of the grid do not trap. *)
Lemma ceil_div_no_trap a b : 1 <= b -> ceil_div_traps a b = false.
Proof.
  intros Hb. unfold ceil_div_traps, Int32.div_traps.
  rewrite (proj2 (Z.eqb_neq b 0)) by lia.
  rewrite (proj2 (Z.eqb_neq b (-1))) by lia.
  now rewrite andb_false_r.
Qed.

(** Without overflow, [ceil_div] is the quotient rounded up. *)
Lemma ceil_div_exact a b :
  0 <= a -> 1 <= b -> a + b <= Int32.max_signed ->
  ceil_div a b = (a + b - 1) / b.
Proof.
  intros Ha Hb Hmax. unfold ceil_div, Int32.div, Int32.sub, Int32.add.
  assert (Hr : forall x, 0 <= x <= Int32.max_signed -> Int32.wrap x = x).
  { intros x Hx. apply wrap_in_range. unfold Int32.in_range, Int32.min_signed.
    lia. }
  rewrite (Hr (a + b)) by lia.
  destruct (Z.eq_dec a 0) as [-> | Hne].
  - replace (0 + b - 1) with (b - 1) in * by lia.
    rewrite (Hr (b - 1)) by lia.
    rewrite Z.quot_small, Z.div_small by lia. apply Hr.
    unfold Int32.max_signed. lia.
  - rewrite (Hr (a + b - 1)) by lia.
    rewrite Z.quot_div_nonneg by lia. apply Hr. split.
    + apply Z.div_pos; lia.
    + transitivity (a + b - 1); [ | lia ].
      apply Z.div_le_upper_bound; nia.
Qed.

Lemma ceil_div_bounds a b :
  0 <= a -> 1 <= b -> a + b <= Int32.max_signed ->
  (ceil_div a b - 1) * b < a <= ceil_div a b * b.
Proof.
  intros Ha Hb Hmax. rewrite ceil_div_exact by assumption.
  pose proof (Z.div_mod (a + b - 1) b ltac:(lia)) as Hdm.
  pose proof (Z.mod_pos_bound (a + b - 1) b ltac:(lia)) as Hm.
  nia.
Qed.

Lemma ceil_div_range a b :
  0 <= a -> 1 <= b -> a + b <= Int32.max_signed ->
  0 <= ceil_div a b <= Int32.max_signed.
Proof.
  intros Ha Hb Hmax. pose proof (ceil_div_bounds a b Ha Hb Hmax) as Hb'.
  split; [ nia | ].
  destruct (Z.le_gt_cases (ceil_div a b) (a + b - 1)) as [Hle | Hgt]; [ lia | ].
  nia.
Qed.

(** ** The copy engine *)

Section Engine.

Local Open Scope nat_scope.

Variables (gshape box origin : nat * nat).

Lemma store_footprint_spec p :
  p ∈ store_footprint gshape box origin
  <-> exists k, k < layout_size box /\ store_target gshape box origin k = Some p.
Proof.
  unfold store_footprint. rewrite list_elem_of_omap. split.
  - intros (k & Hk & Ht). exists k. split; [ | exact Ht ].
    apply elem_of_seq in Hk. lia.
  - intros (k & Hk & Ht). exists k. split; [ | exact Ht ].
    apply elem_of_seq. lia.
Qed.

Lemma tma_store_elem_target tile buf k :
  tma_store_elem tile gshape box origin buf k =
  match store_target gshape box origin k with
  | Some p => <[p := default 0%Z (tile !! k)]> buf
  | None => buf
  end.
Proof. reflexivity. Qed.

Lemma foldl_store_length tile ks buf :
  length (foldl (tma_store_elem tile gshape box origin) buf ks) = length buf.
Proof.
  revert buf. induction ks as [ | k ks IH ]; intros buf; simpl; [ reflexivity | ].
  rewrite IH, tma_store_elem_target.
  destruct (store_target gshape box origin k); [ apply length_insert | reflexivity ].
Qed.

Lemma foldl_store_miss tile ks buf p :
  (forall k, k ∈ ks -> store_target gshape box origin k <> Some p) ->
  foldl (tma_store_elem tile gshape box origin) buf ks !! p = buf !! p.
Proof.
  revert buf. induction ks as [ | k ks IH ]; intros buf Hmiss; simpl;
    [ reflexivity | ].
  rewrite IH by (intros k' Hk'; apply Hmiss; now right).
  rewrite tma_store_elem_target.
  destruct (store_target gshape box origin k) as [q | ] eqn:Hq; [ | reflexivity ].
  apply list_lookup_insert_ne. intros ->. apply (Hmiss k); [ now left | exact Hq ].
Qed.

(** A position that holds [v] keeps it when every write to it carries [v]. *)
Lemma foldl_store_keep tile ks buf p v :
  buf !! p = Some v ->
  (forall k, k ∈ ks -> store_target gshape box origin k = Some p -> default 0%Z (tile !! k) = v) ->
  foldl (tma_store_elem tile gshape box origin) buf ks !! p = Some v.
Proof.
  revert buf. induction ks as [ | k ks IH ]; intros buf Hbuf Hval; simpl;
    [ exact Hbuf | ].
  apply IH; [ | intros k' Hk'; apply Hval; now right ].
  rewrite tma_store_elem_target.
  destruct (store_target gshape box origin k) as [q | ] eqn:Hq; [ | exact Hbuf ].
  destruct (decide (q = p)) as [-> | Hne].
  - rewrite (Hval k) by (first [ now left | exact Hq ]).
    apply list_lookup_insert_eq. now apply lookup_lt_Some in Hbuf.
  - rewrite list_lookup_insert_ne by exact Hne. exact Hbuf.
Qed.

Lemma foldl_store_hit tile ks buf p v :
  p < length buf ->
  (exists k, k ∈ ks /\ store_target gshape box origin k = Some p) ->
  (forall k, k ∈ ks -> store_target gshape box origin k = Some p -> default 0%Z (tile !! k) = v) ->
  foldl (tma_store_elem tile gshape box origin) buf ks !! p = Some v.
Proof.
  revert buf. induction ks as [ | k ks IH ]; intros buf Hlen (k0 & Hin & Ht) Hval.
  - inversion Hin.
  - simpl. rewrite tma_store_elem_target.
    destruct (store_target gshape box origin k) as [q | ] eqn:Hq.
    + destruct (decide (q = p)) as [-> | Hne].
      * apply foldl_store_keep; [ | intros k' Hk'; apply Hval; now right ].
        rewrite (Hval k) by (first [ now left | exact Hq ]).
        now apply list_lookup_insert_eq.
      * apply IH; [ now rewrite length_insert | | intros k' Hk'; apply Hval; now right ].
        apply elem_of_cons in Hin as [-> | Hin]; [ congruence | eauto ].
    + apply IH; [ exact Hlen | | intros k' Hk'; apply Hval; now right ].
      apply elem_of_cons in Hin as [-> | Hin]; [ congruence | eauto ].
Qed.

Lemma tma_load_tile_length buf :
  length (tma_load_tile buf gshape box origin) = layout_size box.
Proof. unfold tma_load_tile. now rewrite length_fmap, length_seq. Qed.

(** What the load puts at a place the store writes back. *)
Lemma tma_load_tile_target buf k p :
  k < layout_size box -> store_target gshape box origin k = Some p ->
  tma_load_tile buf gshape box origin !! k = Some (default 0%Z (buf !! p)).
Proof.
  intros Hk Ht. unfold tma_load_tile. rewrite list_lookup_fmap.
  rewrite lookup_seq_lt by exact Hk. simpl.
  unfold store_target in Ht.
  destruct (in_bounds _ _); [ | discriminate ].
  now inversion Ht.
Qed.

(** A load followed by a store of the same box: the footprint receives the
    source, the rest of the destination is left alone. *)
Lemma store_load_length src dst :
  length (tma_store_tile (tma_load_tile src gshape box origin)
            gshape box origin dst) = length dst.
Proof. apply foldl_store_length. Qed.

Lemma store_load_outside src dst p :
  p ∉ store_footprint gshape box origin ->
  tma_store_tile (tma_load_tile src gshape box origin) gshape box origin dst !! p
  = dst !! p.
Proof.
  intros Hout. apply foldl_store_miss. intros k Hk Ht. apply Hout.
  apply store_footprint_spec. exists k. split; [ | exact Ht ].
  apply elem_of_seq in Hk. lia.
Qed.

Lemma store_load_inside src dst p :
  p < length dst -> p < length src ->
  p ∈ store_footprint gshape box origin ->
  tma_store_tile (tma_load_tile src gshape box origin) gshape box origin dst !! p
  = src !! p.
Proof.
  intros Hd Hs Hin. apply store_footprint_spec in Hin as (k & Hk & Ht).
  destruct (lookup_lt_is_Some_2 src p Hs) as [v Hv]. rewrite Hv.
  apply foldl_store_hit; [ exact Hd | | ].
  - exists k. split; [ apply elem_of_seq; lia | exact Ht ].
  - intros k' Hk' Ht'. apply elem_of_seq in Hk'.
    rewrite (tma_load_tile_target src k' p) by (first [ lia | exact Ht' ]).
    simpl. now rewrite Hv.
Qed.

(** One TMA store is its element stores, done in order. *)
Lemma tma_store_tile_writes tile buf :
  tma_store_tile tile gshape box origin buf
  = apply_writes (store_writes tile gshape box origin) buf.
Proof.
  unfold tma_store_tile, store_writes, apply_writes.
  generalize (seq 0 (layout_size box)) as ks. intros ks. revert buf.
  induction ks as [ | k ks IH ]; intros buf; [ reflexivity | ].
  simpl. rewrite IH. unfold tma_store_elem.
  destruct (store_target gshape box origin k); reflexivity.
Qed.

Lemma store_writes_offsets tile :
  (store_writes tile gshape box origin).*1 = store_footprint gshape box origin.
Proof.
  unfold store_writes, store_footprint.
  induction (seq 0 (layout_size box)) as [ | k ks IH ]; [ reflexivity | ].
  cbn [omap list_omap].
  destruct (store_target gshape box origin k); cbn [fmap option_fmap option_map];
    [ rewrite fmap_cons; cbn [fst]; f_equal | ]; exact IH.
Qed.

(** Every element store of a block's store carries the element the load
    took from the same offset. *)
Lemma store_writes_values src :
  Forall (fun w : nat * Z => w.2 = default 0%Z (src !! w.1))
    (store_writes (tma_load_tile src gshape box origin) gshape box origin).
Proof.
  apply Forall_forall. intros w Hw. unfold store_writes in Hw.
  apply list_elem_of_omap in Hw as (k & Hk & Hf).
  apply elem_of_seq in Hk.
  destruct (store_target gshape box origin k) as [q | ] eqn:Hq;
    [ | discriminate ].
  simpl in Hf. injection Hf as <-. simpl.
  now rewrite (tma_load_tile_target src k q)
    by (first [ lia | exact Hq ]).
Qed.

End Engine.

(** ** Tiles of a row-major array *)

Section Tiling.

Local Open Scope nat_scope.

Lemma div_mod_pair q r b : r < b -> (q * b + r) / b = q /\ (q * b + r) mod b = r.
Proof.
  intros Hr. split; symmetry.
  - apply (Nat.div_unique _ b q r); lia.
  - apply (Nat.mod_unique _ b q r); lia.
Qed.

(** Rows and columns of the array, rows and columns of a tile. *)
Variables (R C TR TC : nat).

Lemma block_footprint_spec blk p :
  p ∈ block_footprint R C TR TC blk <->
  exists r c, r < TR /\ c < TC /\
    blk.1 * TR + r < R /\ blk.2 * TC + c < C /\
    p = (blk.1 * TR + r) * C + (blk.2 * TC + c).
Proof.
  unfold block_footprint. rewrite store_footprint_spec.
  unfold store_target, box_coord, in_bounds, offset_of, local_tile, layout_size.
  simpl. split.
  - intros (k & Hk & Ht). assert (HTC : TC <> 0) by nia.
    exists (k / TC), (k mod TC).
    destruct (Nat.ltb_spec (blk.1 * TR + k / TC) R);
      destruct (Nat.ltb_spec (blk.2 * TC + k mod TC) C);
      simpl in Ht; try discriminate.
    inversion Ht. repeat split; try assumption.
    + apply Nat.Div0.div_lt_upper_bound. lia.
    + now apply Nat.mod_upper_bound.
  - intros (r & c & Hr & Hc & Hi & Hj & ->).
    exists (r * TC + c). destruct (div_mod_pair r c TC Hc) as [-> ->].
    split; [ nia | ].
    destruct (Nat.ltb_spec (blk.1 * TR + r) R); [ | lia ].
    destruct (Nat.ltb_spec (blk.2 * TC + c) C); [ | lia ].
    reflexivity.
Qed.

(** Every offset a block stores to lies in the array and determines the
    block. *)
Lemma block_footprint_inv blk p :
  p ∈ block_footprint R C TR TC blk -> p < R * C /\ block_of C TR TC p = blk.
Proof.
  rewrite block_footprint_spec.
  intros (r & c & Hr & Hc & Hi & Hj & ->). split; [ nia | ].
  unfold block_of.
  destruct (div_mod_pair (blk.1 * TR + r) (blk.2 * TC + c) C Hj) as [-> ->].
  destruct (div_mod_pair blk.1 r TR Hr) as [-> _].
  destruct (div_mod_pair blk.2 c TC Hc) as [-> _].
  now destruct blk.
Qed.

(** Every offset of the array is stored to by its block. *)
Lemma block_footprint_cover p :
  1 <= TR -> 1 <= TC -> p < R * C -> p ∈ block_footprint R C TR TC (block_of C TR TC p).
Proof.
  intros HTR HTC Hp. assert (HC : C <> 0) by nia.
  apply block_footprint_spec. unfold block_of. simpl.
  exists (p / C mod TR), (p mod C mod TC).
  pose proof (Nat.mod_upper_bound (p / C) TR ltac:(lia)) as Hr.
  pose proof (Nat.mod_upper_bound (p mod C) TC ltac:(lia)) as Hc.
  pose proof (Nat.mod_upper_bound p C HC) as Hj.
  pose proof (Nat.div_mod_eq (p / C) TR) as Hi1.
  pose proof (Nat.div_mod_eq (p mod C) TC) as Hj1.
  pose proof (Nat.div_mod_eq p C) as Hp1.
  assert (Hi : p / C < R) by (apply Nat.Div0.div_lt_upper_bound; lia).
  repeat split; lia.
Qed.

(** Two different blocks store to disjoint sets of offsets. *)
Lemma block_footprint_disjoint blk1 blk2 p :
  blk1 <> blk2 -> p ∈ block_footprint R C TR TC blk1 -> p ∈ block_footprint R C TR TC blk2 -> False.
Proof.
  intros Hne H1 H2.
  apply block_footprint_inv in H1 as [_ H1].
  apply block_footprint_inv in H2 as [_ H2]. congruence.
Qed.

End Tiling.

(** ** One thread block *)

(** The leader is thread 0 and no other. *)
Lemma leader_thread t :
  (canonical_warp_idx_sync t =? 0)%nat && elect_one_sync t = (t =? 0)%nat.
Proof.
  unfold canonical_warp_idx_sync, elect_one_sync.
  destruct (Nat.eqb_spec t 0) as [-> | Hne]; [ reflexivity | ].
  destruct (Nat.eqb_spec (t / 32) 0) as [Hd | Hd]; [ | reflexivity ].
  destruct (Nat.eqb_spec (t mod 32) 0) as [Hm | Hm]; [ | reflexivity ].
  pose proof (Nat.div_mod_eq t 32). lia.
Qed.

Lemma kernel_leader params blk :
  copyTMAKernel params blk 0 =
  [PrefetchTmaDescriptor (tmaLoad params);
   PrefetchTmaDescriptor (tmaStore params);
   MbarrierInit 1;
   MbarrierArriveAndExpectTx (kTmaTransactionBytes params);
   CopyTmaLoad (tmaLoad params) (local_tile (tileShape params) blk);
   SyncThreads; MbarrierWait false; FenceViewAsyncShared;
   CopyTmaStore (tmaStore params) (local_tile (tileShape params) blk)].
Proof. reflexivity. Qed.

Lemma kernel_follower params blk t :
  t <> 0%nat ->
  copyTMAKernel params blk t =
  [SyncThreads; MbarrierWait false; FenceViewAsyncShared].
Proof.
  intros Ht. unfold copyTMAKernel. rewrite leader_thread.
  destruct (Nat.eqb_spec t 0); [ contradiction | reflexivity ].
Qed.

(** Armed with the bytes the load delivers, the barrier completes phase 0
    when the load lands. *)
Lemma barrier_completes bytes :
  bar_phase_done false
    (bar_complete_tx bytes (bar_arrive_and_expect_tx bytes (bar_init 1))) = true.
Proof.
  unfold bar_complete_tx, bar_arrive_and_expect_tx, bar_init, bar_settle.
  simpl. destruct (Z.eqb_spec (0 + bytes) 0) as [H0 | H0]; simpl.
  - replace (0 - bytes) with 0 by lia. reflexivity.
  - replace (bytes + 0 - bytes) with 0 by lia.
    replace (0 + bytes - bytes) with 0 by lia. reflexivity.
Qed.

Lemma followers_before_sync params blk ts st :
  (forall t, t ∈ ts -> t <> 0%nat) ->
  run_threads (before_sync <$> (copyTMAKernel params blk <$> ts)) st = Some st.
Proof.
  induction ts as [ | t ts IH ]; intros Hts; [ reflexivity | ].
  simpl. rewrite kernel_follower by (apply Hts; now left). simpl.
  apply IH. intros t' Ht'. apply Hts. now right.
Qed.

Lemma followers_after_sync params blk ts st :
  (forall t, t ∈ ts -> t <> 0%nat) ->
  inflight st = [] ->
  bar_phase_done false (mbarrier (shared st)) = true ->
  run_threads (after_sync <$> (copyTMAKernel params blk <$> ts)) st = Some st.
Proof.
  induction ts as [ | t ts IH ]; intros Hts Hfl Hdone; [ reflexivity | ].
  simpl. rewrite kernel_follower by (apply Hts; now left). simpl.
  rewrite Hfl. simpl. rewrite Hdone. simpl.
  replace {| shared := shared st; inflight := []; gmem := gmem st |} with st
    by (destruct st; simpl in *; congruence).
  apply IH; [ intros t' Ht'; apply Hts; now right | assumption | assumption ].
Qed.

(** What a block leaves in global memory: the load followed by the store. *)
Lemma run_block_eq nthreads params residue blk g :
  (1 <= nthreads)%nat ->
  kTmaTransactionBytes params = tma_box_bytes (tma_box (tmaLoad params)) ->
  tma_box (tmaStore params) = tma_box (tmaLoad params) ->
  run_block nthreads params residue blk g =
  Some (write_buffer g (tma_buffer (tmaStore params))
          (tma_store_tile
             (tma_load_tile (read_buffer g (tma_buffer (tmaLoad params)))
                (tma_gshape (tmaLoad params)) (tma_box (tmaLoad params))
                (local_tile (tileShape params) blk))
             (tma_gshape (tmaStore params)) (tma_box (tmaStore params))
             (local_tile (tileShape params) blk)
             (read_buffer g (tma_buffer (tmaStore params))))).
Proof.
  intros Hn Hbytes Hbox. unfold run_block.
  destruct nthreads as [ | n ]; [ lia | ].
  assert (Hts : forall t, t ∈ seq 1 n -> t <> 0%nat).
  { intros t Ht. apply elem_of_seq in Ht. lia. }
  change (seq 0 (S n)) with (0%nat :: seq 1 n).
  rewrite !fmap_cons, kernel_leader. simpl.
  rewrite followers_before_sync by exact Hts. simpl.
  rewrite Hbytes, barrier_completes. simpl.
  rewrite followers_after_sync; [ | exact Hts | reflexivity | ].
  - simpl. do 3 f_equal.
    rewrite take_app_length'; [ reflexivity | ].
    now rewrite tma_load_tile_length, Hbox.
  - simpl. rewrite <- Hbytes at 1. rewrite Hbytes. apply barrier_completes.
Qed.

(** ** A grid of blocks under the driver's plan *)

Lemma round_up_exact x a : 1 <= a -> x mod a = 0 -> round_up x a = x.
Proof.
  intros Ha Hx. unfold round_up.
  pose proof (Z.div_mod x a ltac:(lia)) as Hdm. rewrite Hx in Hdm.
  replace (x + a - 1) with ((a - 1) + (x / a) * a) by lia.
  rewrite Z.div_add by lia. rewrite (Z.div_small (a - 1) a) by lia. lia.
Qed.

Lemma round_up_padded x a :
  1 <= a -> 0 <= x -> x mod a <> 0 -> x < round_up x a.
Proof.
  intros Ha Hx Hmod. unfold round_up.
  pose proof (Z.div_mod (x + a - 1) a ltac:(lia)) as Hdm.
  pose proof (Z.mod_pos_bound (x + a - 1) a ltac:(lia)) as Hb.
  assert (Hge : x <= (x + a - 1) / a * a) by nia.
  destruct (Z.eq_dec x ((x + a - 1) / a * a)) as [Heq | Hne]; [ | lia ].
  exfalso. apply Hmod. rewrite Heq. apply Z.mod_mul. lia.
Qed.


(** The barrier is armed with the bytes of one tile. *)
Lemma kTmaTransactionBytes_host TILE_M TILE_N M N :
  1 <= TILE_M -> 1 <= TILE_N -> staging_ok TILE_M TILE_N ->
  kTmaTransactionBytes (make_params TILE_M TILE_N M N)
  = sizeof_Element * (TILE_M * TILE_N).
Proof.
  intros HM HN (Ha & Hmod & Hmax).
  unfold kTmaTransactionBytes, sizeof_ArrayEngine, make_params, layout_size.
  simpl. rewrite Nat2Z.inj_mul, !Z2Nat.id by lia.
  rewrite round_up_exact by assumption.
  apply wrap_in_range. unfold Int32.in_range, Int32.min_signed, sizeof_Element in *.
  nia.
Qed.

Section HostGrid.

Variables (TILE_M TILE_N M N : Z).
Hypothesis Htm : 1 <= TILE_M.
Hypothesis Htn : 1 <= TILE_N.
Hypothesis Hstaging : staging_ok TILE_M TILE_N.

Let params := make_params TILE_M TILE_N M N.
Let R := Z.to_nat M.
Let C := Z.to_nat N.
Let TR := Z.to_nat TILE_M.
Let TC := Z.to_nat TILE_N.

Lemma host_block nthreads residue blk g :
  (1 <= nthreads)%nat ->
  run_block nthreads params residue blk g =
  Some {| d_S := d_S g;
          d_D := tma_store_tile
                   (tma_load_tile (d_S g) (R, C) (TR, TC) (local_tile (TR, TC) blk))
                   (R, C) (TR, TC) (local_tile (TR, TC) blk) (d_D g) |}.
Proof.
  intros Hn. rewrite run_block_eq; [ reflexivity | exact Hn | | reflexivity ].
  unfold params. rewrite kTmaTransactionBytes_host by assumption.
  unfold tma_box_bytes, make_params, layout_size. simpl.
  rewrite Nat2Z.inj_mul, !Z2Nat.id by lia. reflexivity.
Qed.

(** Blocks run one after another: the source is never written, and an
    offset of the destination holds the source's element as soon as one
    of the blocks has it in its footprint, and its old element otherwise. *)
Lemma host_blocks nthreads residue bs g :
  (1 <= nthreads)%nat ->
  length (d_D g) = length (d_S g) ->
  exists D',
    run_blocks nthreads params residue bs g = Some {| d_S := d_S g; d_D := D' |}
    /\ length D' = length (d_D g)
    /\ (forall p, Exists (fun b => p ∈ block_footprint R C TR TC b) bs ->
                  D' !! p = d_S g !! p)
    /\ (forall p, Forall (fun b => p ∉ block_footprint R C TR TC b) bs ->
                  D' !! p = d_D g !! p).
Proof.
  intros Hn. revert g. induction bs as [ | b bs IH ]; intros g Hlen.
  - exists (d_D g). simpl. destruct g. simpl. repeat split; try reflexivity.
    intros p Hex. inversion Hex.
  - simpl. rewrite host_block by exact Hn. simpl.
    set (D1 := tma_store_tile _ _ _ _ (d_D g)).
    assert (Hlen1 : length D1 = length (d_D g)) by apply store_load_length.
    destruct (IH {| d_S := d_S g; d_D := D1 |}) as (D' & Hrun & HlenD & Hin & Hout).
    { simpl. congruence. }
    simpl in *. exists D'. split; [ exact Hrun | ]. split; [ congruence | ].
    assert (Hb : forall p, p ∈ block_footprint R C TR TC b -> D1 !! p = d_S g !! p).
    { intros p Hp. destruct (Nat.lt_ge_cases p (length (d_S g))) as [Hlt | Hge].
      - apply store_load_inside; [ lia | exact Hlt | exact Hp ].
      - rewrite (lookup_ge_None_2 (d_S g)) by exact Hge.
        apply lookup_ge_None_2. lia. }
    split.
    + intros p Hex.
      destruct (decide (Exists (fun b => p ∈ block_footprint R C TR TC b) bs))
        as [Hrest | Hrest].
      * now apply Hin.
      * rewrite Hout by now apply Forall_Exists_neg.
        apply Exists_cons in Hex as [Hp | Hp]; [ now apply Hb | contradiction ].
    + intros p Hall. apply Forall_cons in Hall as [Hp Hall].
      rewrite Hout by exact Hall. now apply store_load_outside.
Qed.

(** A whole grid that covers the array copies it. *)
Lemma host_grid nthreads residue gx gy g :
  (1 <= nthreads)%nat ->
  length (d_S g) = (R * C)%nat -> length (d_D g) = (R * C)%nat ->
  (R <= gx * TR)%nat -> (C <= gy * TC)%nat ->
  run_blocks nthreads params residue (grid_blocks gx gy) g
  = Some {| d_S := d_S g; d_D := d_S g |}.
Proof.
  intros Hn HlS HlD Hgx Hgy.
  destruct (host_blocks nthreads residue (grid_blocks gx gy) g Hn)
    as (D' & Hrun & HlenD & Hin & _); [ congruence | ].
  rewrite Hrun. do 2 f_equal. apply list_eq. intros p.
  destruct (Nat.lt_ge_cases p (R * C)) as [Hlt | Hge].
  - apply Hin. apply Exists_exists. exists (block_of C TR TC p).
    assert (HTR : (1 <= TR)%nat) by (unfold TR; lia).
    assert (HTC : (1 <= TC)%nat) by (unfold TC; lia).
    split; [ | now apply block_footprint_cover ].
    unfold grid_blocks, block_of. apply list_elem_of_In, in_prod_iff.
    assert (HC : C <> 0%nat) by nia.
    assert (Hi : (p / C < R)%nat) by (apply Nat.Div0.div_lt_upper_bound; lia).
    pose proof (Nat.mod_upper_bound p C HC) as Hj.
    split; apply in_seq; split; try lia; simpl;
      apply Nat.Div0.div_lt_upper_bound; nia.
  - rewrite !lookup_ge_None_2 by lia. reflexivity.
Qed.

End HostGrid.

(** ** The launch loop *)

Section Loop.

Variables (dev : Device) (lp : ClusterLaunchParams) (params : Params).

(** [Inv] holds of the device memory between launches, and an accepted
    launch turns memory [g] into [F g]. *)
Variables (Inv : Gmem -> Prop) (F : Gmem -> Gmem).

Hypothesis Hrun : forall k g,
  Inv g -> launch_accepted dev k lp = true ->
  run_blocks (Z.to_nat (dim_x (block_dims lp))) params (smem_residue dev k)
    (launch_blocks lp) g = Some (F g) /\ Inv (F g).

Lemma launch_effect_inv g k : Inv g -> Inv (launch_effect dev lp F g k).
Proof.
  intros Hg. unfold launch_effect.
  destruct (launch_accepted dev k lp) eqn:Hacc; [ | exact Hg ].
  now destruct (Hrun k g Hg Hacc).
Qed.

Lemma launch_step k g :
  Inv g ->
  snd (launch_kernel_on_cluster dev k lp params g) = Some (launch_effect dev lp F g k).
Proof.
  intros Hg. unfold launch_kernel_on_cluster. unfold launch_effect.
  destruct (launch_accepted dev k lp) eqn:Hacc; [ | reflexivity ].
  simpl. now destruct (Hrun k g Hg Hacc).
Qed.

(** The loop either runs all its passes, every synchronization having
    succeeded, or returns -1 at the first synchronization that reports an
    error, after printing the runtime's message for it. *)
Lemma launch_loop_cases n i s :
  Inv (ls_gmem s) ->
  (Forall (fun k => sync_result dev k = cudaSuccess) (seq i n) /\
   launch_loop dev lp params n i s =
   LoopDone {| ls_output := ls_output s ++ trial_lines (seq i n);
               ls_launches := (ls_launches s + n)%nat;
               ls_units := (ls_units s + units_of dev lp (seq i n))%nat;
               ls_gmem := foldl (launch_effect dev lp F) (ls_gmem s) (seq i n) |})
  \/
  (exists m, (m < n)%nat /\
     Forall (fun k => sync_result dev k = cudaSuccess) (seq i m) /\
     sync_result dev (i + m)%nat <> cudaSuccess /\
     launch_loop dev lp params n i s =
     LoopReturn (-1)
       {| ls_output := ls_output s ++ trial_lines (seq i m)
                       ++ [ErrCudaRuntime
                             (cudaGetErrorString (sync_result dev (i + m)%nat))];
          ls_launches := (ls_launches s + S m)%nat;
          ls_units := (ls_units s + units_of dev lp (seq i (S m)))%nat;
          ls_gmem := foldl (launch_effect dev lp F) (ls_gmem s) (seq i (S m)) |}).
Proof.
  revert i s. induction n as [ | n IH ]; intros i s Hinv.
  - left. split; [ constructor | ]. simpl. unfold trial_lines, units_of. simpl.
    rewrite app_nil_r, !Nat.add_0_r. now destruct s.
  - simpl launch_loop.
    pose proof (launch_step i (ls_gmem s) Hinv) as Hstep.
    destruct (launch_kernel_on_cluster dev i lp params (ls_gmem s)) as [st og].
    simpl in Hstep. subst og.
    assert (Hunits : forall ks,
      ((if launch_accepted dev i lp then length (launch_blocks lp) else 0%nat)
       + units_of dev lp ks = units_of dev lp (i :: ks))%nat).
    { intros ks. unfold units_of. simpl.
      destruct (launch_accepted dev i lp); simpl; lia. }
    destruct (Z.eqb_spec (sync_result dev i) cudaSuccess) as [Hok | Hbad]; simpl.
    + match goal with |- context [launch_loop _ _ _ n (S i) ?s1] =>
        destruct (IH (S i) s1) as [[Hall Heq] | (m & Hm & Hall & Hbad & Heq)]
      end.
      { simpl. now apply launch_effect_inv. }
      * left. split; [ now constructor | ]. rewrite Heq. simpl. f_equal.
        f_equal.
        -- unfold trial_lines. simpl. now rewrite <- app_assoc.
        -- lia.
        -- pose proof (Hunits (seq (S i) n)) as Hu. lia.
      * right. exists (S m). split; [ lia | ]. split; [ now constructor | ].
        replace (i + S m)%nat with (S i + m)%nat by lia.
        split; [ exact Hbad | ]. rewrite Heq. simpl. f_equal. f_equal.
        -- unfold trial_lines. simpl. now rewrite <- !app_assoc.
        -- lia.
        -- pose proof (Hunits (seq (S i) (S m))) as Hu. cbn [seq] in Hu. lia.
    + right. exists 0%nat. split; [ lia | ]. split; [ constructor | ].
      rewrite Nat.add_0_r. split; [ exact Hbad | ].
      f_equal. f_equal.
      * lia.
      * pose proof (Hunits []) as Hu. unfold units_of in Hu at 1.
        simpl in Hu. cbn [seq]. lia.
Qed.

End Loop.

(** ** The driver *)

Section Driver.

Variables (TILE_M TILE_N THREADS M N iterations : Z) (dev : Device).

Let lp := make_launch_params TILE_M TILE_N THREADS M N.
Let params := make_params TILE_M TILE_N M N.
Let size := Z.to_nat (Int32.mul M N).
Let g0 : Gmem := {| d_S := init_source size; d_D := replicate size 0 |}.
Let n := Z.to_nat iterations.

(** The driver's outcome, from the outcome of its loop. *)
Lemma driver_cases (Inv : Gmem -> Prop) (F : Gmem -> Gmem) :
  (forall k g,
     Inv g -> launch_accepted dev k lp = true ->
     run_blocks (Z.to_nat (dim_x (block_dims lp))) params (smem_residue dev k)
       (launch_blocks lp) g = Some (F g) /\ Inv (F g)) ->
  Inv g0 ->
  0 <= Int32.mul M N ->
  1 <= TILE_M -> 1 <= TILE_N ->
  let gfin := foldl (launch_effect dev lp F) g0 (seq 0 n) in
  (Forall (fun k => sync_result dev k = cudaSuccess) (seq 0 n) /\
   copy_host_tma_load_and_store_kernel TILE_M TILE_N THREADS M N iterations dev
   = Returned
       {| status := 0;
          output := [OutBanner; OutSmemSize (smem_size_in_bytes lp)]
                    ++ trial_lines (seq 0 n)
                    ++ [OutSummary (verify (d_D gfin) (init_source size)).1
                                   (verify (d_D gfin) (init_source size)).2];
          launches := n;
          units_run := units_of dev lp (seq 0 n);
          h_S := init_source size;
          h_D := d_D gfin;
          device := gfin |})
  \/
  (exists m, (m < n)%nat /\
     Forall (fun k => sync_result dev k = cudaSuccess) (seq 0 m) /\
     sync_result dev m <> cudaSuccess /\
     copy_host_tma_load_and_store_kernel TILE_M TILE_N THREADS M N iterations dev
     = Returned
         {| status := -1;
            output := [OutBanner; OutSmemSize (smem_size_in_bytes lp)]
                      ++ trial_lines (seq 0 m)
                      ++ [ErrCudaRuntime (cudaGetErrorString (sync_result dev m))];
            launches := S m;
            units_run := units_of dev lp (seq 0 (S m));
            h_S := init_source size;
            h_D := replicate size 0;
            device := foldl (launch_effect dev lp F) g0 (seq 0 (S m)) |}).
Proof.
  intros Hrun Hinv0 Hsize Htm Htn gfin.
  unfold copy_host_tma_load_and_store_kernel.
  destruct (Z.ltb_spec (Int32.mul M N) 0) as [Hneg | _]; [ lia | ].
  rewrite (ceil_div_no_trap M TILE_M Htm), (ceil_div_no_trap N TILE_N Htn).
  cbn [orb].
  rewrite length_replicate. fold size. fold g0. fold lp. fold params. fold n.
  set (s0 := {| ls_output := [OutBanner; OutSmemSize (smem_size_in_bytes lp)];
                ls_launches := 0; ls_units := 0; ls_gmem := g0 |}).
  destruct (launch_loop_cases dev lp params Inv F Hrun n 0%nat s0 Hinv0)
    as [[Hall Heq] | (m & Hm & Hall & Hbad & Heq)].
  - left. split; [ exact Hall | ]. rewrite Heq. reflexivity.
  - right. exists m. split; [ exact Hm | ]. split; [ exact Hall | ].
    split; [ exact Hbad | ]. rewrite Heq. reflexivity.
Qed.

End Driver.

(** ** The driver on shapes the model covers *)

Section Covered.

Variables (TILE_M TILE_N THREADS M N : Z) (dev : Device).
Hypothesis Hshape : shape_ok TILE_M TILE_N M N.
Hypothesis Hstaging : staging_ok TILE_M TILE_N.

Let lp := make_launch_params TILE_M TILE_N THREADS M N.
Let params := make_params TILE_M TILE_N M N.
Let size := Z.to_nat (Int32.mul M N).
Let g0 : Gmem := {| d_S := init_source size; d_D := replicate size 0 |}.

Lemma size_exact : Int32.mul M N = M * N /\ 0 <= M * N.
Proof.
  destruct Hshape as (_ & _ & HM & HN & Hmn & _). split; [ | nia ].
  apply wrap_in_range. unfold Int32.in_range, Int32.min_signed. nia.
Qed.

Lemma size_product : size = (Z.to_nat M * Z.to_nat N)%nat.
Proof.
  unfold size. destruct size_exact as [-> _].
  destruct Hshape as (_ & _ & HM & HN & _). now rewrite Z2Nat.inj_mul.
Qed.

Lemma grid_x_exact : dim_x (grid_dims lp) = ceil_div M TILE_M.
Proof.
  destruct Hshape as (Htm & _ & HM & _ & _ & Hx & _).
  apply to_unsigned_small, ceil_div_range; lia.
Qed.

Lemma grid_y_exact : dim_y (grid_dims lp) = ceil_div N TILE_N.
Proof.
  destruct Hshape as (_ & Htn & _ & HN & _ & _ & Hy).
  apply to_unsigned_small, ceil_div_range; lia.
Qed.

Lemma grid_covers :
  (Z.to_nat M <= Z.to_nat (dim_x (grid_dims lp)) * Z.to_nat TILE_M)%nat /\
  (Z.to_nat N <= Z.to_nat (dim_y (grid_dims lp)) * Z.to_nat TILE_N)%nat.
Proof.
  rewrite grid_x_exact, grid_y_exact.
  destruct Hshape as (Htm & Htn & HM & HN & _ & Hx & Hy).
  pose proof (ceil_div_bounds M TILE_M HM Htm Hx) as Hbx.
  pose proof (ceil_div_bounds N TILE_N HN Htn Hy) as Hby.
  pose proof (ceil_div_range M TILE_M HM Htm Hx) as Hrx.
  pose proof (ceil_div_range N TILE_N HN Htn Hy) as Hry.
  split; rewrite <- Z2Nat.inj_mul by lia; apply Z2Nat.inj_le; lia.
Qed.

Lemma covered_run k g :
  covered_inv size g -> launch_accepted dev k lp = true ->
  run_blocks (Z.to_nat (dim_x (block_dims lp))) params (smem_residue dev k)
    (launch_blocks lp) g = Some (copied g) /\ covered_inv size (copied g).
Proof.
  intros [HS HD] Hacc.
  assert (HlS : length (d_S g) = size).
  { rewrite HS. unfold init_source. now rewrite length_fmap, length_seq. }
  split.
  - destruct Hshape as (Htm & Htn & _). destruct grid_covers as [Hgx Hgy].
    unfold launch_blocks. apply host_grid; try assumption.
    + unfold launch_accepted in Hacc.
      apply andb_prop in Hacc as [_ Hb]. apply Z.leb_le in Hb. lia.
    + now rewrite <- size_product.
    + now rewrite <- size_product.
  - split; [ exact HS | exact HlS ].
Qed.

Lemma covered_inv0 : covered_inv size g0.
Proof. split; [ reflexivity | apply length_replicate ]. Qed.

(** After any passes, the destination is the source if one of the
    launches was accepted, and untouched otherwise. *)
Lemma covered_effect ks g :
  foldl (launch_effect dev lp copied) g ks =
  if existsb (fun k => launch_accepted dev k lp) ks then copied g else g.
Proof.
  revert g. induction ks as [ | k ks IH ]; intros g; [ reflexivity | ].
  simpl. rewrite IH. unfold launch_effect.
  destruct (launch_accepted dev k lp); simpl; [ | reflexivity ].
  now destruct (existsb _ ks).
Qed.

End Covered.

(** ** Order of a thread's instructions *)

Lemma strictly_beforeb_sound P Q l :
  strictly_beforeb P Q l = true -> strictly_before P Q l.
Proof.
  induction l as [ | x l IH ]; intros Hb i j a b Hi Hj Pa Qb.
  - discriminate.
  - simpl in Hb. apply andb_prop in Hb as [Hhead Htail].
    destruct j as [ | j ].
    + simpl in Hj. inversion Hj; subst x. rewrite Qb in Hhead. simpl in Hhead.
      assert (Hall : forallb (fun b => negb (P b)) (b :: l) = true) by exact Hhead.
      rewrite forallb_forall in Hall.
      assert (Hin : In a (b :: l)).
      { apply list_elem_of_In, list_elem_of_lookup. now exists i. }
      apply Hall in Hin. rewrite Pa in Hin. discriminate.
    + destruct i as [ | i ]; [ lia | ].
      simpl in Hi, Hj. apply -> Nat.succ_lt_mono.
      now apply (IH Htail i j a b).
Qed.

(** A thread of the kernel runs one of two programs. *)
Lemma kernel_programs params blk t :
  copyTMAKernel params blk t = copyTMAKernel params blk 0%nat
  \/ copyTMAKernel params blk t =
     [SyncThreads; MbarrierWait false; FenceViewAsyncShared].
Proof.
  destruct (Nat.eq_dec t 0%nat) as [-> | Hne]; [ now left | right ].
  now apply kernel_follower.
Qed.

(** C2, as amended: in every thread of every block the barrier is
    initialised, then armed with the expected bytes, then the load is
    issued, then the thread waits on the barrier, then it issues the
    fence, and only then is the store issued; the leader issues each of
    these. *)
Theorem kernel_order params blk t :
  strictly_before is_init is_arm (copyTMAKernel params blk t)
  /\ strictly_before is_arm is_load (copyTMAKernel params blk t)
  /\ strictly_before is_load is_wait (copyTMAKernel params blk t)
  /\ strictly_before is_wait is_fence (copyTMAKernel params blk t)
  /\ strictly_before is_fence is_store (copyTMAKernel params blk t)
  /\ forallb (fun P => existsb P (copyTMAKernel params blk 0%nat))
       [is_init; is_arm; is_load; is_wait; is_fence; is_store] = true.
Proof.
  destruct (kernel_programs params blk t) as [-> | ->];
    repeat split; try (apply strictly_beforeb_sound; reflexivity).
Qed.

(** A wait that returns has seen the barrier complete the phase, with
    every load delivered. *)
Lemma wait_returns_satisfied phase st st' :
  exec_instr (MbarrierWait phase) st = Some st' ->
  bar_phase_done phase (mbarrier (shared st')) = true /\ inflight st' = [].
Proof.
  simpl. destruct (bar_phase_done phase _) eqn:Hdone; [ | discriminate ].
  intros Heq. inversion Heq; subst st'. simpl. now split.
Qed.

(** C5: in every thread the store is the last instruction: nothing follows
    it, no program contains [tma_store_arrive] or [tma_store_wait], and
    every arming of and wait on a barrier comes before the store, which
    the leader does issue; issuing the store never blocks and leaves the
    barrier and the shared storage as they are. *)
Theorem store_is_last params blk t :
  after_first is_store (copyTMAKernel params blk t) = []
  /\ forallb (fun i => negb (is_store_completion i))
       (copyTMAKernel params blk t) = true
  /\ strictly_before is_arm is_store (copyTMAKernel params blk t)
  /\ strictly_before is_wait is_store (copyTMAKernel params blk t)
  /\ last (copyTMAKernel params blk 0%nat)
     = Some (CopyTmaStore (tmaStore params) (local_tile (tileShape params) blk))
  /\ (forall d origin st,
        exists st',
          exec_instr (CopyTmaStore d origin) st = Some st'
          /\ shared st' = shared st /\ inflight st' = inflight st).
Proof.
  destruct (kernel_programs params blk t) as [-> | ->];
    repeat split; try (apply strictly_beforeb_sound; reflexivity);
    intros d origin st; eexists; repeat split.
Qed.

(** ** Sizes *)


(** ** The launch grid *)

Lemma ceiling_bounds a b : 1 <= b -> (ceiling a b - 1) * b < a <= ceiling a b * b.
Proof.
  intros Hb. unfold ceiling.
  pose proof (Z.div_mod (- a) b ltac:(lia)) as Hdm.
  pose proof (Z.mod_pos_bound (- a) b ltac:(lia)) as Hm. nia.
Qed.

Lemma ceil_div_ceiling a b :
  0 <= a -> 1 <= b -> a + b <= Int32.max_signed -> ceil_div a b = ceiling a b.
Proof.
  intros Ha Hb Hmax.
  pose proof (ceil_div_bounds a b Ha Hb Hmax).
  pose proof (ceiling_bounds a b Hb). nia.
Qed.

Lemma NoDup_list_prod {A B} (l : list A) (l' : list B) :
  NoDup l -> NoDup l' -> NoDup (list_prod l l').
Proof.
  intros Hl Hl'. induction Hl as [ | x l Hx Hl IH ]; simpl; [ constructor | ].
  apply NoDup_app. split; [ | split ].
  - now apply (NoDup_fmap_2 (pair x)).
  - intros [a b] Hin1 Hin2. apply list_elem_of_In, in_map_iff in Hin1.
    destruct Hin1 as (y & Hy & _). inversion Hy; subst.
    apply list_elem_of_In, in_prod_iff in Hin2. destruct Hin2 as [Hin2 _].
    apply Hx. now apply list_elem_of_In.
  - exact IH.
Qed.

Lemma local_tile_inj tile b1 b2 :
  (1 <= tile.1)%nat -> (1 <= tile.2)%nat ->
  local_tile tile b1 = local_tile tile b2 -> b1 = b2.
Proof.
  destruct tile as [tr tc], b1 as [x1 y1], b2 as [x2 y2].
  unfold local_tile. simpl. intros Hr Hc Heq. inversion Heq.
  f_equal; nia.
Qed.

(** C4, as amended: when the sums inside the two [ceil_div] do not
    overflow, the grid is [ceil(M / TILE_M)] by [ceil(N / TILE_N)] by 1;
    its blocks are pairwise different, each has a tile that meets the
    array, every element of the array lies in the tile of one of them, and
    different blocks get different tiles. *)
Theorem grid_is_ceiling TILE_M TILE_N THREADS M N :
  shape_ok TILE_M TILE_N M N ->
  dim_x (grid_dims (make_launch_params TILE_M TILE_N THREADS M N))
    = ceiling M TILE_M
  /\ dim_y (grid_dims (make_launch_params TILE_M TILE_N THREADS M N))
    = ceiling N TILE_N
  /\ dim_z (grid_dims (make_launch_params TILE_M TILE_N THREADS M N)) = 1
  /\ Z.of_nat (length (launch_blocks
                         (make_launch_params TILE_M TILE_N THREADS M N)))
    = ceiling M TILE_M * ceiling N TILE_N
  /\ NoDup (launch_blocks (make_launch_params TILE_M TILE_N THREADS M N))
  /\ (forall b,
        b ∈ launch_blocks (make_launch_params TILE_M TILE_N THREADS M N) ->
        Z.of_nat b.1 * TILE_M < M /\ Z.of_nat b.2 * TILE_N < N)
  /\ (forall i j, 0 <= i < M -> 0 <= j < N ->
        (Z.to_nat (i / TILE_M), Z.to_nat (j / TILE_N))
        ∈ launch_blocks (make_launch_params TILE_M TILE_N THREADS M N))
  /\ (forall b1 b2,
        local_tile (tileShape (make_params TILE_M TILE_N M N)) b1
        = local_tile (tileShape (make_params TILE_M TILE_N M N)) b2 ->
        b1 = b2).
Proof.
  intros Hshape.
  pose proof (grid_x_exact TILE_M TILE_N THREADS M N Hshape) as Hx.
  pose proof (grid_y_exact TILE_M TILE_N THREADS M N Hshape) as Hy.
  destruct Hshape as (Htm & Htn & HM & HN & _ & Hmx & Hmy).
  rewrite ceil_div_ceiling in Hx, Hy by assumption.
  pose proof (ceiling_bounds M TILE_M Htm) as Hbx.
  pose proof (ceiling_bounds N TILE_N Htn) as Hby.
  assert (Hcx : 0 <= ceiling M TILE_M) by nia.
  assert (Hcy : 0 <= ceiling N TILE_N) by nia.
  unfold launch_blocks, grid_blocks. rewrite Hx, Hy.
  split; [ reflexivity | ]. split; [ reflexivity | ]. split; [ reflexivity | ].
  split; [ rewrite length_prod, !length_seq; lia | ].
  split; [ apply NoDup_list_prod; apply NoDup_seq | ].
  split; [ | split ].
  - intros [bx by_] Hb. apply list_elem_of_In, in_prod_iff in Hb.
    destruct Hb as [Hbx' Hby']. apply in_seq in Hbx', Hby'. simpl. nia.
  - intros i j Hi Hj. apply list_elem_of_In, in_prod_iff.
    assert (Hqi : 0 <= i / TILE_M < ceiling M TILE_M).
    { split; [ apply Z.div_pos; lia | apply Z.div_lt_upper_bound; nia ]. }
    assert (Hqj : 0 <= j / TILE_N < ceiling N TILE_N).
    { split; [ apply Z.div_pos; lia | apply Z.div_lt_upper_bound; nia ]. }
    split; apply in_seq; lia.
  - intros b1 b2. apply local_tile_inj; simpl; lia.
Qed.

(** ** What one block touches *)

Lemma elem_bytes_spec a p :
  In a (elem_bytes p)
  <-> sizeof_Element * Z.of_nat p <= a < sizeof_Element * Z.of_nat p + sizeof_Element.
Proof.
  unfold elem_bytes, sizeof_Element. rewrite <- list_elem_of_In, list_elem_of_fmap.
  split.
  - intros (b & -> & Hb). apply elem_of_seq in Hb. simpl in Hb. lia.
  - intros Ha. exists (Z.to_nat (a - 4 * Z.of_nat p)). split; [ lia | ].
    apply elem_of_seq. simpl. lia.
Qed.

Lemma footprint_bytes_spec R C TR TC blk a :
  a ∈ footprint_bytes R C TR TC blk
  <-> 0 <= a /\ Z.to_nat (a / sizeof_Element) ∈ block_footprint R C TR TC blk.
Proof.
  unfold footprint_bytes. rewrite list_elem_of_In, <- flat_map_concat_map, in_flat_map.
  split.
  - intros (p & Hp & Ha). apply elem_bytes_spec in Ha. unfold sizeof_Element in *.
    assert (Hq : a / 4 = Z.of_nat p).
    { symmetry. apply Z.div_unique with (a - 4 * Z.of_nat p); lia. }
    rewrite Hq, Nat2Z.id. split; [ lia | now apply list_elem_of_In ].
  - intros [Ha Hp]. exists (Z.to_nat (a / sizeof_Element)).
    split; [ now apply list_elem_of_In | ].
    apply elem_bytes_spec. unfold sizeof_Element in *.
    rewrite Z2Nat.id by (apply Z.div_pos; lia).
    pose proof (Z.div_mod a 4 ltac:(lia)). pose proof (Z.mod_pos_bound a 4 ltac:(lia)).
    lia.
Qed.

(** C8: a block of the driver's plan finishes; it leaves the source as it
    was and the destination too outside its footprint, whose offsets all
    lie in the array and in the block's own tile; inside the footprint the
    destination receives the source; and the bytes two different blocks
    store to are disjoint. *)
Theorem block_writes_own_tile TILE_M TILE_N M N nthreads residue blk g :
  1 <= TILE_M -> 1 <= TILE_N -> staging_ok TILE_M TILE_N ->
  (1 <= nthreads)%nat ->
  exists g',
    run_block nthreads (make_params TILE_M TILE_N M N) residue blk g = Some g'
    /\ d_S g' = d_S g
    /\ length (d_D g') = length (d_D g)
    /\ (forall p,
          p ∉ block_footprint (Z.to_nat M) (Z.to_nat N) (Z.to_nat TILE_M)
                (Z.to_nat TILE_N) blk ->
          d_D g' !! p = d_D g !! p)
    /\ (forall p,
          p ∈ block_footprint (Z.to_nat M) (Z.to_nat N) (Z.to_nat TILE_M)
                (Z.to_nat TILE_N) blk ->
          (p < Z.to_nat M * Z.to_nat N)%nat
          /\ block_of (Z.to_nat N) (Z.to_nat TILE_M) (Z.to_nat TILE_N) p = blk
          /\ (p < length (d_D g) -> p < length (d_S g) ->
              d_D g' !! p = d_S g !! p)%nat)
    /\ (forall blk' a,
          blk' <> blk ->
          a ∈ footprint_bytes (Z.to_nat M) (Z.to_nat N) (Z.to_nat TILE_M)
                (Z.to_nat TILE_N) blk ->
          a ∉ footprint_bytes (Z.to_nat M) (Z.to_nat N) (Z.to_nat TILE_M)
                (Z.to_nat TILE_N) blk').
Proof.
  intros Htm Htn Hst Hn. eexists. split; [ now apply host_block | ]. simpl.
  split; [ reflexivity | ]. split; [ apply store_load_length | ].
  split; [ intros p Hp; now apply store_load_outside | ]. split.
  - intros p Hp. destruct (block_footprint_inv _ _ _ _ _ _ Hp) as [Hlt Hblk].
    split; [ exact Hlt | ]. split; [ exact Hblk | ].
    intros Hd Hs. now apply store_load_inside.
  - intros blk' a Hne Ha Ha'.
    apply footprint_bytes_spec in Ha as [_ Ha].
    apply footprint_bytes_spec in Ha' as [_ Ha'].
    exact (block_footprint_disjoint _ _ _ _ _ _ _ Hne Ha' Ha).
Qed.

(** ** The driver's result *)

(** On a covered shape the driver returns, in one of two ways. *)
Lemma covered_cases TILE_M TILE_N THREADS M N iterations dev :
  shape_ok TILE_M TILE_N M N -> staging_ok TILE_M TILE_N ->
  let lp := make_launch_params TILE_M TILE_N THREADS M N in
  let size := Z.to_nat (M * N) in
  let n := Z.to_nat iterations in
  let gfin := fun ks : list nat =>
    if existsb (fun k => launch_accepted dev k lp) ks
    then {| d_S := init_source size; d_D := init_source size |}
    else {| d_S := init_source size; d_D := replicate size 0 |} in
  (Forall (fun k => sync_result dev k = cudaSuccess) (seq 0 n) /\
   copy_host_tma_load_and_store_kernel TILE_M TILE_N THREADS M N iterations dev
   = Returned
       {| status := 0;
          output := [OutBanner; OutSmemSize (smem_size_in_bytes lp)]
                    ++ trial_lines (seq 0 n)
                    ++ [OutSummary
                          (verify (d_D (gfin (seq 0 n))) (init_source size)).1
                          (verify (d_D (gfin (seq 0 n))) (init_source size)).2];
          launches := n;
          units_run := units_of dev lp (seq 0 n);
          h_S := init_source size;
          h_D := d_D (gfin (seq 0 n));
          device := gfin (seq 0 n) |})
  \/
  (exists m, (m < n)%nat /\
     Forall (fun k => sync_result dev k = cudaSuccess) (seq 0 m) /\
     sync_result dev m <> cudaSuccess /\
     copy_host_tma_load_and_store_kernel TILE_M TILE_N THREADS M N iterations dev
     = Returned
         {| status := -1;
            output := [OutBanner; OutSmemSize (smem_size_in_bytes lp)]
                      ++ trial_lines (seq 0 m)
                      ++ [ErrCudaRuntime (cudaGetErrorString (sync_result dev m))];
            launches := S m;
            units_run := units_of dev lp (seq 0 (S m));
            h_S := init_source size;
            h_D := replicate size 0;
            device := gfin (seq 0 (S m)) |}).
Proof.
  intros Hshape Hstaging lp size n gfin.
  destruct (size_exact TILE_M TILE_N M N Hshape) as [Hmul Hnonneg].
  pose proof (driver_cases TILE_M TILE_N THREADS M N iterations dev
                (covered_inv (Z.to_nat (Int32.mul M N))) copied
                (covered_run TILE_M TILE_N THREADS M N dev Hshape Hstaging)
                (covered_inv0 M N)) as Hcases.
  rewrite Hmul in Hcases.
  specialize (Hcases Hnonneg (proj1 Hshape) (proj1 (proj2 Hshape))).
  cbv zeta in Hcases.
  assert (Hg : forall ks,
    foldl (launch_effect dev lp copied)
      {| d_S := init_source size; d_D := replicate size 0 |} ks = gfin ks).
  { intros ks. unfold gfin, lp. rewrite covered_effect.
    now destruct (existsb _ ks). }
  fold lp size n in Hcases.
  destruct Hcases as [[Hall Heq] | (m & Hm & Hall & Hbad & Heq)].
  - left. split; [ exact Hall | ]. now rewrite Hg in Heq.
  - right. exists m. repeat (split; [ assumption | ]). now rewrite Hg in Heq.
Qed.

Lemma last_after_header {A} (l1 l2 : list A) (x : A) :
  last (l1 ++ l2 ++ [x]) = Some x.
Proof. rewrite app_assoc. apply last_snoc. Qed.

Lemma Forall_seq_lt (P : nat -> Prop) n :
  Forall P (seq 0 n) <-> forall k, (k < n)%nat -> P k.
Proof.
  rewrite Forall_forall. split.
  - intros H k Hk. apply H, elem_of_seq. lia.
  - intros H k Hk. apply elem_of_seq in Hk. apply H. lia.
Qed.

Lemma existsb_seq_lt (f : nat -> bool) n :
  existsb f (seq 0 n) = true <-> exists k, (k < n)%nat /\ f k = true.
Proof.
  rewrite existsb_exists. split.
  - intros (k & Hk & Hf). apply in_seq in Hk. exists k. split; [ lia | exact Hf ].
  - intros (k & Hk & Hf). exists k. split; [ apply in_seq; lia | exact Hf ].
Qed.

(** C1, as amended: on a covered shape the driver returns; when it returns
    status 0 and the device accepted at least one of its launches (which
    needs [iterations >= 1]), the destination equals the source, element
    for element, on the device and in the host copy, whatever part of the
    last tiles lies outside the array. *)
Theorem round_trip_after_launch TILE_M TILE_N THREADS M N iterations dev :
  shape_ok TILE_M TILE_N M N -> staging_ok TILE_M TILE_N ->
  (exists k, (k < Z.to_nat iterations)%nat /\
     launch_accepted dev k (make_launch_params TILE_M TILE_N THREADS M N) = true) ->
  round_trip
    (copy_host_tma_load_and_store_kernel TILE_M TILE_N THREADS M N iterations dev)
  /\ exists r,
       copy_host_tma_load_and_store_kernel TILE_M TILE_N THREADS M N iterations dev
       = Returned r
       /\ (status r = 0 ->
           d_D (device r) = d_S (device r) /\ h_D r = h_S r
           /\ h_S r = init_source (Z.to_nat (M * N))
           /\ length (h_D r) = Z.to_nat (M * N)).
Proof.
  intros Hshape Hstaging Hacc. apply existsb_seq_lt in Hacc.
  destruct (covered_cases TILE_M TILE_N THREADS M N iterations dev Hshape Hstaging)
    as [[_ Heq] | (m & _ & _ & _ & Heq)]; rewrite Heq; simpl.
  - rewrite Hacc. simpl. split.
    + intros r Hr _. inversion Hr; subst r. reflexivity.
    + eexists. split; [ reflexivity | ]. simpl. intros _.
      repeat split. unfold init_source. now rewrite length_fmap, length_seq.
  - split.
    + intros r Hr H0. inversion Hr; subst r. discriminate.
    + eexists. split; [ reflexivity | ]. simpl. intros H0. discriminate.
Qed.

(** C7: on a covered shape, with every synchronization succeeding and a
    launch accepted in each run, a run of more than one iteration and a
    run of one iteration both return 0 and leave the same destination,
    whatever the shared storage holds when a block starts. *)
Theorem iterations_idempotent TILE_M TILE_N THREADS M N iterations dev dev1 :
  shape_ok TILE_M TILE_N M N -> staging_ok TILE_M TILE_N ->
  1 < iterations ->
  (forall k, (k < Z.to_nat iterations)%nat -> sync_result dev k = cudaSuccess) ->
  (exists k, (k < Z.to_nat iterations)%nat /\
     launch_accepted dev k (make_launch_params TILE_M TILE_N THREADS M N) = true) ->
  sync_result dev1 0%nat = cudaSuccess ->
  launch_accepted dev1 0%nat (make_launch_params TILE_M TILE_N THREADS M N) = true ->
  exists r r1,
    copy_host_tma_load_and_store_kernel TILE_M TILE_N THREADS M N iterations dev
    = Returned r
    /\ copy_host_tma_load_and_store_kernel TILE_M TILE_N THREADS M N 1 dev1
       = Returned r1
    /\ status r = 0 /\ status r1 = 0
    /\ d_D (device r) = d_D (device r1)
    /\ h_D r = h_D r1.
Proof.
  intros Hshape Hstaging Hit Hsync Hacc Hsync1 Hacc1.
  apply existsb_seq_lt in Hacc.
  destruct (covered_cases TILE_M TILE_N THREADS M N iterations dev Hshape Hstaging)
    as [[_ Heq] | (m & Hm & _ & Hbad & _)]; [ | now specialize (Hsync m Hm) ].
  destruct (covered_cases TILE_M TILE_N THREADS M N 1 dev1 Hshape Hstaging)
    as [[_ Heq1] | (m & Hm & _ & Hbad & _)].
  - rewrite Heq, Heq1. do 2 eexists. split; [ reflexivity | ].
    split; [ reflexivity | ]. simpl. rewrite Hacc, Hacc1. simpl.
    repeat split.
  - change (Z.to_nat 1) with 1%nat in Hm. assert (m = 0%nat) by lia. subst m.
    contradiction.
Qed.

(** C9: on a covered shape the driver returns; its status is 0 when every
    synchronization succeeds, and when the synchronization of a pass is
    the first to report an error its status is -1 and the last thing it
    printed is the runtime's message for that error. *)
Theorem status_contract TILE_M TILE_N THREADS M N iterations dev :
  shape_ok TILE_M TILE_N M N -> staging_ok TILE_M TILE_N ->
  exists r,
    copy_host_tma_load_and_store_kernel TILE_M TILE_N THREADS M N iterations dev
    = Returned r
    /\ ((forall k, (k < Z.to_nat iterations)%nat ->
           sync_result dev k = cudaSuccess) -> status r = 0)
    /\ (forall m,
          (m < Z.to_nat iterations)%nat ->
          (forall k, (k < m)%nat -> sync_result dev k = cudaSuccess) ->
          sync_result dev m <> cudaSuccess ->
          status r = -1 /\ status r <> 0
          /\ last (output r)
             = Some (ErrCudaRuntime (cudaGetErrorString (sync_result dev m)))
          /\ launches r = S m).
Proof.
  intros Hshape Hstaging.
  destruct (covered_cases TILE_M TILE_N THREADS M N iterations dev Hshape Hstaging)
    as [[Hall Heq] | (m0 & Hm0 & Hall & Hbad & Heq)]; rewrite Heq;
    eexists; (split; [ reflexivity | ]); cbn [status output launches].
  - split; [ reflexivity | ]. intros m Hm _ Hbad.
    rewrite Forall_seq_lt in Hall. now specialize (Hall m Hm).
  - split; [ intros Hsync; now specialize (Hsync m0 Hm0) | ].
    intros m Hm Hbefore Hbadm. rewrite Forall_seq_lt in Hall.
    assert (m = m0).
    { destruct (Nat.lt_trichotomy m m0) as [Hlt | [Heqm | Hgt]];
        [ now specialize (Hall m Hlt) | exact Heqm
        | now specialize (Hbefore m0 Hgt) ]. }
    subst m0. split; [ reflexivity | ]. split; [ discriminate | ].
    split; [ | reflexivity ].
    apply last_after_header.
Qed.

(** C10: on a covered shape, when every synchronization succeeds the
    driver returns 0 and the last thing it prints is the two counts of the
    verification pass, whatever they are; with no iteration it makes no
    launch, runs no block, and the destination is still all zeros, on the
    device and in the host copy. *)
Theorem status_ignores_verification TILE_M TILE_N THREADS M N iterations dev :
  shape_ok TILE_M TILE_N M N -> staging_ok TILE_M TILE_N ->
  (forall k, (k < Z.to_nat iterations)%nat -> sync_result dev k = cudaSuccess) ->
  exists r,
    copy_host_tma_load_and_store_kernel TILE_M TILE_N THREADS M N iterations dev
    = Returned r
    /\ status r = 0
    /\ last (output r)
       = Some (OutSummary (verify (h_D r) (h_S r)).1 (verify (h_D r) (h_S r)).2)
    /\ (iterations <= 0 ->
        launches r = 0%nat /\ units_run r = 0%nat
        /\ h_D r = replicate (Z.to_nat (M * N)) 0
        /\ d_D (device r) = replicate (Z.to_nat (M * N)) 0).
Proof.
  intros Hshape Hstaging Hsync.
  destruct (covered_cases TILE_M TILE_N THREADS M N iterations dev Hshape Hstaging)
    as [[_ Heq] | (m & Hm & _ & Hbad & _)]; [ | now specialize (Hsync m Hm) ].
  rewrite Heq. eexists. split; [ reflexivity | ].
  cbn [status output launches units_run h_S h_D device].
  split; [ reflexivity | ]. split.
  - apply last_after_header.
  - intros H0. replace (Z.to_nat iterations) with 0%nat by lia. now simpl.
Qed.

(** ** Extents that are not positive *)






(** * Further properties *)

(** ** The verification pass *)

Lemma int_succ x : 0 <= x < Int32.max_signed -> Int32.add x 1 = x + 1.
Proof.
  intros Hx. apply wrap_in_range.
  unfold Int32.in_range, Int32.min_signed, Int32.max_signed in *. lia.
Qed.

(** The two counters over any run of indices: they never overflow, they
    add up to the number of indices seen, and the second only moves on an
    index where the two vectors differ. *)
Lemma verify_fold (h_D h_S : list Z) ks gb :
  0 <= gb.1 -> 0 <= gb.2 ->
  gb.1 + gb.2 + Z.of_nat (length ks) <= Int32.max_signed ->
  let r := foldl (fun (gb : Z * Z) (i : nat) =>
                    if default 0 (h_D !! i) =? default 0 (h_S !! i)
                    then (Int32.add gb.1 1, gb.2)
                    else (gb.1, Int32.add gb.2 1)) gb ks in
  gb.1 <= r.1 /\ gb.2 <= r.2
  /\ r.1 + r.2 = gb.1 + gb.2 + Z.of_nat (length ks)
  /\ (r.2 = gb.2 <->
      forall i, i ∈ ks -> default 0 (h_D !! i) = default 0 (h_S !! i)).
Proof.
  revert gb. induction ks as [ | k ks IH ]; intros [g b] Hg Hb Hmax; simpl in *.
  - split; [ lia | ]. split; [ lia | ]. split; [ lia | ].
    split; [ intros _ i Hi; inversion Hi | reflexivity ].
  - destruct (Z.eqb_spec (default 0 (h_D !! k)) (default 0 (h_S !! k)))
      as [Heq | Hne].
    + pose proof (int_succ g ltac:(lia)) as Hs.
      destruct (IH (Int32.add g 1, b)) as (H1 & H2 & H3 & H4); simpl; try lia.
      simpl in *.
      split; [ lia | ]. split; [ lia | ]. split; [ lia | ]. split.
      * intros Hr i Hi. apply elem_of_cons in Hi as [-> | Hi];
          [ exact Heq | now apply H4 ].
      * intros Hall. apply H4. intros i Hi. apply Hall. now right.
    + pose proof (int_succ b ltac:(lia)) as Hs.
      destruct (IH (g, Int32.add b 1)) as (H1 & H2 & H3 & H4); simpl; try lia.
      simpl in *.
      split; [ lia | ]. split; [ lia | ]. split; [ lia | ]. split.
      * intros Hr. lia.
      * intros Hall. exfalso. apply Hne, Hall. now left.
Qed.

(** X1: the verification pass sorts every element of the destination into
    one of its two counters: neither is negative and together they count
    the elements of [h_D]. *)
Theorem verify_counts_partition (h_D h_S : list Z) :
  Z.of_nat (length h_D) <= Int32.max_signed ->
  0 <= (verify h_D h_S).1 /\ 0 <= (verify h_D h_S).2
  /\ (verify h_D h_S).1 + (verify h_D h_S).2 = Z.of_nat (length h_D).
Proof.
  intros Hlen. unfold verify.
  destruct (verify_fold h_D h_S (seq 0 (length h_D)) (0, 0))
    as (H1 & H2 & H3 & _); simpl; rewrite ?length_seq; try lia.
  simpl in *. rewrite length_seq in H3. lia.
Qed.

(** On vectors of one length the pass counts no failure exactly when the
    two are equal, and then every element is counted a success. *)
Lemma verify_zero_iff (h_D h_S : list Z) :
  length h_D = length h_S ->
  Z.of_nat (length h_D) <= Int32.max_signed ->
  ((verify h_D h_S).2 = 0 <-> h_D = h_S)
  /\ ((verify h_D h_S).1 = Z.of_nat (length h_D) <-> h_D = h_S).
Proof.
  intros Hlen Hmax. unfold verify.
  destruct (verify_fold h_D h_S (seq 0 (length h_D)) (0, 0))
    as (H1 & H2 & H3 & H4); simpl; rewrite ?length_seq; try lia.
  simpl in *. rewrite length_seq in H3.
  assert (Heq : (forall i, i ∈ seq 0 (length h_D) ->
                   default 0 (h_D !! i) = default 0 (h_S !! i)) <-> h_D = h_S).
  { split; [ | now intros -> ].
    intros Hall. apply list_eq. intros i.
    destruct (Nat.lt_ge_cases i (length h_D)) as [Hlt | Hge].
    - specialize (Hall i ltac:(apply elem_of_seq; lia)).
      destruct (lookup_lt_is_Some_2 h_D i Hlt) as [x Hx].
      destruct (lookup_lt_is_Some_2 h_S i ltac:(lia)) as [y Hy].
      rewrite Hx, Hy in *. simpl in Hall. now subst.
    - rewrite !lookup_ge_None_2 by lia. reflexivity. }
  rewrite <- Heq, <- H4. split; [ reflexivity | ]. split; lia.
Qed.

(** ** The pattern in the source *)

Lemma float_exact i : 0 <= i <= 2 ^ 24 -> float_of_size_t i = i.
Proof.
  intros Hi. unfold float_of_size_t.
  destruct (Z.ltb_spec i (2 ^ 24)) as [Hlt | Hge]; [ reflexivity | ].
  assert (i = 2 ^ 24) by lia. subst i. reflexivity.
Qed.

Lemma init_source_lookup size i :
  (i < size)%nat -> init_source size !! i = Some (float_of_size_t (Z.of_nat i)).
Proof.
  intros Hi. unfold init_source. rewrite list_lookup_fmap.
  now rewrite lookup_seq_lt.
Qed.

(** X10: the source is initialised with the index itself up to index
    [2^24]; its elements are pairwise different exactly when it has at
    most [2^24 + 1] of them, for [float(2^24 + 1)] is [2^24] again. *)
Theorem source_pattern_distinct_iff (size : nat) :
  (forall i, (i < size)%nat -> Z.of_nat i <= 2 ^ 24 ->
             init_source size !! i = Some (Z.of_nat i))
  /\ (NoDup (init_source size) <-> Z.of_nat size <= 2 ^ 24 + 1).
Proof.
  split.
  - intros i Hi Hle. rewrite init_source_lookup by exact Hi.
    now rewrite float_exact by lia.
  - split.
    + intros Hnd. destruct (Z.le_gt_cases (Z.of_nat size) (2 ^ 24 + 1))
        as [Hle | Hgt]; [ exact Hle | exfalso ].
      rewrite NoDup_alt in Hnd.
      assert (Ha : (Z.to_nat (2 ^ 24) < size)%nat) by lia.
      assert (Hb : (Z.to_nat (2 ^ 24 + 1) < size)%nat) by lia.
      specialize (Hnd (Z.to_nat (2 ^ 24)) (Z.to_nat (2 ^ 24 + 1)) (2 ^ 24)).
      rewrite !init_source_lookup in Hnd by assumption.
      rewrite !Z2Nat.id in Hnd by lia.
      specialize (Hnd eq_refl eq_refl). lia.
    + intros Hle. unfold init_source.
      apply NoDup_fmap_2_strong; [ | apply NoDup_seq ].
      intros x y Hx Hy Hxy. apply elem_of_seq in Hx, Hy.
      rewrite !float_exact in Hxy by lia. lia.
Qed.

(** ** The programs of a block *)

Lemma issued_cons P p ps :
  issued P (p :: ps) = (length (List.filter P p) + issued P ps)%nat.
Proof. unfold issued. simpl. now rewrite List.filter_app, length_app. Qed.

Lemma issued_followers P params blk ts :
  (forall t, t ∈ ts -> t <> 0%nat) ->
  issued P (copyTMAKernel params blk <$> ts)
  = (length ts
     * length (List.filter P [SyncThreads; MbarrierWait false;
                              FenceViewAsyncShared]))%nat.
Proof.
  induction ts as [ | t ts IH ]; intros Hts; [ reflexivity | ].
  rewrite fmap_cons, issued_cons, kernel_follower by (apply Hts; now left).
  rewrite IH by (intros t' Ht'; apply Hts; now right). simpl length. lia.
Qed.

(** X8: whatever the number of threads of a block, the block issues one
    barrier initialisation, one arming, one load, one store and two
    descriptor prefetches in all, while every thread synchronises, waits
    and fences once. *)
Theorem one_leader_per_block params blk nthreads :
  (1 <= nthreads)%nat ->
  issued is_init (block_programs params blk nthreads) = 1%nat
  /\ issued is_arm (block_programs params blk nthreads) = 1%nat
  /\ issued is_load (block_programs params blk nthreads) = 1%nat
  /\ issued is_store (block_programs params blk nthreads) = 1%nat
  /\ issued is_prefetch (block_programs params blk nthreads) = 2%nat
  /\ issued is_store_completion (block_programs params blk nthreads) = 0%nat
  /\ issued is_sync (block_programs params blk nthreads) = nthreads
  /\ issued is_wait (block_programs params blk nthreads) = nthreads
  /\ issued is_fence (block_programs params blk nthreads) = nthreads.
Proof.
  intros Hn. destruct nthreads as [ | n ]; [ lia | ].
  assert (Hts : forall t, t ∈ seq 1 n -> t <> 0%nat).
  { intros t Ht. apply elem_of_seq in Ht. lia. }
  unfold block_programs. change (seq 0 (S n)) with (0%nat :: seq 1 n).
  rewrite fmap_cons, kernel_leader.
  repeat split; rewrite issued_cons, issued_followers by exact Hts;
    rewrite length_seq; simpl; lia.
Qed.

(** X9: every thread reaches [__syncthreads()] exactly once; what it runs
    before contains no wait, fence or store, and what it runs after
    contains no initialisation, arming or load. *)
Theorem syncthreads_splits_program params blk t :
  copyTMAKernel params blk t
  = before_sync (copyTMAKernel params blk t)
    ++ SyncThreads :: after_sync (copyTMAKernel params blk t)
  /\ length (List.filter is_sync (copyTMAKernel params blk t)) = 1%nat
  /\ forallb (fun i => negb (is_wait i || is_fence i || is_store i))
       (before_sync (copyTMAKernel params blk t)) = true
  /\ forallb (fun i => negb (is_init i || is_arm i || is_load i))
       (after_sync (copyTMAKernel params blk t)) = true.
Proof.
  destruct (kernel_programs params blk t) as [-> | ->]; repeat split.
Qed.

(** ** A grid as a composition of block copies *)

Lemma Gmem_eq (a b : Gmem) : d_S a = d_S b -> d_D a = d_D b -> a = b.
Proof. destruct a, b. simpl. now intros -> ->. Qed.

(** A load followed by a store of the same box puts the source's element,
    or zero where the source is too short, at every offset of the
    footprint that the destination has. *)
Lemma store_load_written gshape box origin (src dst : list Z) p :
  (p < length dst)%nat ->
  p ∈ store_footprint gshape box origin ->
  tma_store_tile (tma_load_tile src gshape box origin) gshape box origin dst !! p
  = Some (default 0 (src !! p)).
Proof.
  intros Hd Hin. apply store_footprint_spec in Hin as (k & Hk & Ht).
  apply foldl_store_hit; [ exact Hd | | ].
  - exists k. split; [ apply elem_of_seq; lia | exact Ht ].
  - intros k' Hk' Ht'. apply elem_of_seq in Hk'.
    now rewrite (tma_load_tile_target gshape box origin src k' p)
      by (first [ lia | exact Ht' ]).
Qed.

Section GridCopy.

Variables (TILE_M TILE_N M N : Z).

Let params := make_params TILE_M TILE_N M N.
Let R := Z.to_nat M.
Let C := Z.to_nat N.
Let TR := Z.to_nat TILE_M.
Let TC := Z.to_nat TILE_N.

Lemma block_copy_lookup blk g p :
  d_S (block_copy params blk g) = d_S g
  /\ length (d_D (block_copy params blk g)) = length (d_D g)
  /\ d_D (block_copy params blk g) !! p
     = if decide (p ∈ block_footprint R C TR TC blk /\ (p < length (d_D g))%nat)
       then Some (default 0 (d_S g !! p)) else d_D g !! p.
Proof.
  split; [ reflexivity | ]. split; [ apply store_load_length | ].
  unfold block_copy. simpl.
  destruct (decide (p ∈ block_footprint R C TR TC blk)) as [Hin | Hout].
  - destruct (Nat.lt_ge_cases p (length (d_D g))) as [Hlt | Hge].
    + rewrite decide_True by (split; assumption).
      now apply store_load_written.
    + rewrite decide_False by lia.
      rewrite (lookup_ge_None_2 (d_D g)) by exact Hge.
      apply lookup_ge_None_2. now rewrite store_load_length.
  - rewrite decide_False by (intros [Hin _]; contradiction).
    now apply store_load_outside.
Qed.

(** After the blocks of any list, an offset of the destination holds the
    source's element if one of the blocks has it in its footprint, and
    what it held before otherwise. *)
Lemma grid_copy_lookup bs g p :
  d_S (grid_copy params bs g) = d_S g
  /\ length (d_D (grid_copy params bs g)) = length (d_D g)
  /\ d_D (grid_copy params bs g) !! p
     = if decide (Exists (fun b => p ∈ block_footprint R C TR TC b) bs
                  /\ (p < length (d_D g))%nat)
       then Some (default 0 (d_S g !! p)) else d_D g !! p.
Proof.
  revert g. induction bs as [ | b bs IH ]; intros g.
  - split; [ reflexivity | ]. split; [ reflexivity | ].
    rewrite decide_False; [ reflexivity | ]. intros [Hex _]. inversion Hex.
  - unfold grid_copy. simpl. fold (grid_copy params bs (block_copy params b g)).
    destruct (IH (block_copy params b g)) as (HS & HL & HD).
    destruct (block_copy_lookup b g p) as (HS1 & HL1 & HD1).
    split; [ congruence | ]. split; [ congruence | ].
    rewrite HD, HD1, HS1, HL1.
    pose proof (Exists_cons (fun b => p ∈ block_footprint R C TR TC b) b bs)
      as Hex.
    destruct (decide (Exists (fun b => p ∈ block_footprint R C TR TC b) bs
                      /\ (p < length (d_D g))%nat)) as [[HP HLp] | HnP].
    + rewrite decide_True; [ reflexivity | ].
      split; [ apply Hex; now right | exact HLp ].
    + destruct (decide (p ∈ block_footprint R C TR TC b
                        /\ (p < length (d_D g))%nat)) as [[HQ HLq] | HnQ].
      * rewrite decide_True; [ reflexivity | ].
        split; [ apply Hex; now left | exact HLq ].
      * rewrite decide_False; [ reflexivity | ].
        intros [HE HLe]. apply Hex in HE as [HQ | HP];
          [ apply HnQ | apply HnP ]; now split.
Qed.

Hypothesis Htm : 1 <= TILE_M.
Hypothesis Htn : 1 <= TILE_N.
Hypothesis Hstaging : staging_ok TILE_M TILE_N.

Lemma run_block_block_copy nthreads residue blk g :
  (1 <= nthreads)%nat ->
  run_block nthreads params residue blk g = Some (block_copy params blk g).
Proof.
  intros Hn. apply run_block_eq; [ exact Hn | | reflexivity ].
  unfold params. rewrite kTmaTransactionBytes_host by assumption.
  unfold tma_box_bytes, make_params, layout_size. simpl.
  rewrite Nat2Z.inj_mul, !Z2Nat.id by lia. reflexivity.
Qed.

Lemma run_blocks_grid_copy nthreads residue bs g :
  (1 <= nthreads)%nat ->
  run_blocks nthreads params residue bs g = Some (grid_copy params bs g).
Proof.
  intros Hn. revert g. induction bs as [ | b bs IH ]; intros g; [ reflexivity | ].
  simpl. rewrite run_block_block_copy by exact Hn. simpl. apply IH.
Qed.

Lemma block_copy_writes blk g :
  block_copy params blk g
  = {| d_S := d_S g; d_D := apply_writes (block_writes params blk g) (d_D g) |}.
Proof.
  unfold block_copy, block_writes. now rewrite tma_store_tile_writes.
Qed.

Lemma block_writes_source blk g g' :
  d_S g' = d_S g -> block_writes params blk g' = block_writes params blk g.
Proof. intros HS. unfold block_writes. simpl. now rewrite HS. Qed.

Lemma apply_writes_app ws1 ws2 buf :
  apply_writes (ws1 ++ ws2) buf = apply_writes ws2 (apply_writes ws1 buf).
Proof. unfold apply_writes. apply foldl_app. Qed.

Lemma grid_writes_cons b bs g :
  grid_writes params (b :: bs) g
  = block_writes params b g ++ grid_writes params bs g.
Proof. reflexivity. Qed.

Lemma grid_writes_source bs g g' :
  d_S g' = d_S g -> grid_writes params bs g' = grid_writes params bs g.
Proof.
  intros HS. unfold grid_writes. f_equal.
  apply list_fmap_ext. intros _ blk _. now apply block_writes_source.
Qed.

Lemma grid_copy_writes bs g :
  grid_copy params bs g
  = {| d_S := d_S g; d_D := apply_writes (grid_writes params bs g) (d_D g) |}.
Proof.
  revert g. induction bs as [ | b bs IH ]; intros g.
  - now destruct g.
  - unfold grid_copy. simpl. fold (grid_copy params bs (block_copy params b g)).
    rewrite IH, block_copy_writes. cbn [d_S d_D].
    rewrite grid_writes_cons, apply_writes_app.
    now rewrite (grid_writes_source bs g) by reflexivity.
Qed.

Lemma grid_writes_offsets bs g :
  (grid_writes params bs g).*1 = grid_footprint R C TR TC bs.
Proof.
  induction bs as [ | b bs IH ]; [ reflexivity | ].
  rewrite grid_writes_cons, fmap_app, IH.
  unfold grid_footprint. rewrite fmap_cons. cbn [concat]. f_equal.
  apply store_writes_offsets.
Qed.

Lemma grid_writes_values bs g :
  Forall (fun w : nat * Z => w.2 = default 0 (d_S g !! w.1))
    (grid_writes params bs g).
Proof.
  induction bs as [ | b bs IH ]; [ constructor | ].
  rewrite grid_writes_cons. apply Forall_app. split; [ | exact IH ].
  apply store_writes_values.
Qed.

End GridCopy.

(** X6: under the driver's plan the threads of a grid do, block after
    block, one load and one store of the block's box; every block
    finishes, and neither the number of threads of a block nor what its
    shared storage held before changes the result. *)
Theorem grid_refines_block_copies TILE_M TILE_N M N nthreads nthreads'
  residue residue' bs g :
  1 <= TILE_M -> 1 <= TILE_N -> staging_ok TILE_M TILE_N ->
  (1 <= nthreads)%nat -> (1 <= nthreads')%nat ->
  run_blocks nthreads (make_params TILE_M TILE_N M N) residue bs g
  = Some (grid_copy (make_params TILE_M TILE_N M N) bs g)
  /\ run_blocks nthreads' (make_params TILE_M TILE_N M N) residue' bs g
     = run_blocks nthreads (make_params TILE_M TILE_N M N) residue bs g.
Proof.
  intros Htm Htn Hst Hn Hn'.
  now rewrite !run_blocks_grid_copy by assumption.
Qed.

(** X7: the order in which the blocks of a grid run does not matter: two
    lists with the same blocks leave the same global memory. *)
Theorem block_order_irrelevant TILE_M TILE_N M N nthreads residue bs bs' g :
  1 <= TILE_M -> 1 <= TILE_N -> staging_ok TILE_M TILE_N ->
  (1 <= nthreads)%nat ->
  bs ≡ₚ bs' ->
  run_blocks nthreads (make_params TILE_M TILE_N M N) residue bs g
  = run_blocks nthreads (make_params TILE_M TILE_N M N) residue bs' g.
Proof.
  intros Htm Htn Hst Hn Hperm.
  rewrite !run_blocks_grid_copy by assumption. f_equal.
  destruct (grid_copy_lookup TILE_M TILE_N M N bs g 0%nat) as (HS & HL & _).
  destruct (grid_copy_lookup TILE_M TILE_N M N bs' g 0%nat) as (HS' & HL' & _).
  apply Gmem_eq; [ congruence | ]. apply list_eq. intros p.
  destruct (grid_copy_lookup TILE_M TILE_N M N bs g p) as (_ & _ & ->).
  destruct (grid_copy_lookup TILE_M TILE_N M N bs' g p) as (_ & _ & ->).
  assert (Hiff : forall P : nat * nat -> Prop, Exists P bs <-> Exists P bs').
  { intros P. rewrite !Exists_exists. split; intros (b & Hb & HP); exists b;
      (split; [ | exact HP ]); [ now rewrite <- Hperm | now rewrite Hperm ]. }
  specialize (Hiff (fun b => p ∈ block_footprint (Z.to_nat M) (Z.to_nat N)
                              (Z.to_nat TILE_M) (Z.to_nat TILE_N) b)).
  destruct (decide (Exists (fun b => p ∈ block_footprint (Z.to_nat M)
                              (Z.to_nat N) (Z.to_nat TILE_M) (Z.to_nat TILE_N) b)
                      bs /\ (p < length (d_D g))%nat)) as [[HE HLp] | Hnot].
  - rewrite decide_True; [ reflexivity | ].
    split; [ now apply Hiff | exact HLp ].
  - rewrite decide_False; [ reflexivity | ].
    intros [HE HLp]. apply Hnot. split; [ now apply Hiff | exact HLp ].
Qed.

(** ** Every element is written once *)

Lemma NoDup_omap_inj {A B} (f : A -> option B) (l : list A) :
  (forall x y z, x ∈ l -> y ∈ l -> f x = Some z -> f y = Some z -> x = y) ->
  NoDup l -> NoDup (omap f l).
Proof.
  intros Hinj Hnd. induction Hnd as [ | x l Hx Hnd IH ]; simpl; [ constructor | ].
  assert (Htail : NoDup (omap f l)).
  { apply IH. intros a b z Ha Hb. apply Hinj; now right. }
  destruct (f x) as [z | ] eqn:Hfx; [ | exact Htail ].
  constructor; [ | exact Htail ].
  intros Hin. apply list_elem_of_omap in Hin as (y & Hy & Hfy).
  apply Hx. rewrite (Hinj x y z); [ exact Hy | now left | now right | | ];
    assumption.
Qed.

(** Inside a block no offset is stored to twice. *)
Lemma block_footprint_NoDup R C TR TC blk :
  NoDup (block_footprint R C TR TC blk).
Proof.
  unfold block_footprint, store_footprint.
  apply NoDup_omap_inj; [ | apply NoDup_seq ].
  intros k1 k2 p Hk1 Hk2 H1 H2. apply elem_of_seq in Hk1, Hk2.
  unfold layout_size in Hk1, Hk2. simpl in Hk1, Hk2.
  assert (HTC : TC <> 0%nat) by nia.
  unfold store_target, box_coord, in_bounds, offset_of, local_tile in H1, H2.
  simpl in H1, H2.
  destruct (Nat.ltb_spec (blk.1 * TR + k1 / TC) R); [ | discriminate ].
  destruct (Nat.ltb_spec (blk.2 * TC + k1 mod TC) C) as [Hj1 | ];
    [ | discriminate ].
  destruct (Nat.ltb_spec (blk.1 * TR + k2 / TC) R); [ | discriminate ].
  destruct (Nat.ltb_spec (blk.2 * TC + k2 mod TC) C) as [Hj2 | ];
    [ | discriminate ].
  simpl in H1, H2. inversion H1 as [Hp1]. inversion H2 as [Hp2].
  destruct (div_mod_pair (blk.1 * TR + k1 / TC) (blk.2 * TC + k1 mod TC) C Hj1)
    as [Hd1 Hm1].
  destruct (div_mod_pair (blk.1 * TR + k2 / TC) (blk.2 * TC + k2 mod TC) C Hj2)
    as [Hd2 Hm2].
  rewrite Hp1 in Hd1, Hm1. rewrite Hp2 in Hd2, Hm2.
  pose proof (Nat.div_mod_eq k1 TC). pose proof (Nat.div_mod_eq k2 TC).
  assert (k1 / TC = k2 / TC)%nat by lia.
  assert (k1 mod TC = k2 mod TC)%nat by lia.
  congruence.
Qed.

Lemma grid_footprint_spec R C TR TC bs p :
  p ∈ grid_footprint R C TR TC bs
  <-> exists b, b ∈ bs /\ p ∈ block_footprint R C TR TC b.
Proof.
  unfold grid_footprint. induction bs as [ | b bs IH ]; simpl.
  - split; [ intros H; inversion H | intros (b & Hb & _); inversion Hb ].
  - rewrite elem_of_app, IH. split.
    + intros [Hp | (b' & Hb' & Hp)];
        [ exists b; split; [ now left | exact Hp ]
        | exists b'; split; [ now right | exact Hp ] ].
    + intros (b' & Hb' & Hp). apply elem_of_cons in Hb' as [-> | Hb'];
        [ now left | right; now exists b' ].
Qed.

Lemma grid_footprint_NoDup R C TR TC bs :
  NoDup bs -> NoDup (grid_footprint R C TR TC bs).
Proof.
  intros Hnd. induction Hnd as [ | b bs Hb Hnd IH ]; [ constructor | ].
  unfold grid_footprint. simpl. apply NoDup_app.
  split; [ apply block_footprint_NoDup | ]. split; [ | exact IH ].
  intros p Hp Hrest. apply grid_footprint_spec in Hrest as (b' & Hb' & Hp').
  apply (block_footprint_disjoint R C TR TC b b' p); try assumption.
  intros ->. contradiction.
Qed.

(** A grid that covers the array stores to every offset of the array once
    and to nothing else. *)
Lemma grid_footprint_partition R C TR TC gx gy :
  (1 <= TR)%nat -> (1 <= TC)%nat ->
  (R <= gx * TR)%nat -> (C <= gy * TC)%nat ->
  grid_footprint R C TR TC (grid_blocks gx gy) ≡ₚ seq 0 (R * C).
Proof.
  intros HTR HTC Hgx Hgy. apply NoDup_Permutation.
  - apply grid_footprint_NoDup, NoDup_list_prod; apply NoDup_seq.
  - apply NoDup_seq.
  - intros p. rewrite grid_footprint_spec, elem_of_seq. split.
    + intros (b & _ & Hp). apply block_footprint_inv in Hp. lia.
    + intros [_ Hp]. simpl in Hp. exists (block_of C TR TC p).
      split; [ | now apply block_footprint_cover ].
      unfold grid_blocks, block_of. apply list_elem_of_In, in_prod_iff.
      assert (HC : C <> 0%nat) by nia.
      assert (Hi : (p / C < R)%nat) by (apply Nat.Div0.div_lt_upper_bound; lia).
      pose proof (Nat.mod_upper_bound p C HC) as Hj.
      split; apply in_seq; split; try lia; simpl;
        apply Nat.Div0.div_lt_upper_bound; nia.
Qed.

(** X12: one launch of the driver's grid acts on device memory as a
    sequence of element stores, those of the stores of its blocks, block
    after block.  The offsets of these stores are a rearrangement of
    [0 .. M*N - 1], so every element of the destination is stored to
    exactly once and nothing else is stored to, and each store carries the
    element the source holds at its offset. *)
Theorem launch_writes_each_element_once TILE_M TILE_N THREADS M N
  nthreads residue g :
  shape_ok TILE_M TILE_N M N -> staging_ok TILE_M TILE_N ->
  (1 <= nthreads)%nat ->
  let params := make_params TILE_M TILE_N M N in
  let blocks := launch_blocks (make_launch_params TILE_M TILE_N THREADS M N) in
  let writes := grid_writes params blocks g in
  run_blocks nthreads params residue blocks g
  = Some {| d_S := d_S g; d_D := apply_writes writes (d_D g) |}
  /\ writes.*1 ≡ₚ seq 0 (Z.to_nat (M * N))
  /\ Forall (fun w : nat * Z => w.2 = default 0 (d_S g !! w.1)) writes.
Proof.
  intros Hshape Hstaging Hn params blocks writes.
  destruct (grid_covers TILE_M TILE_N THREADS M N Hshape) as [Hgx Hgy].
  destruct Hshape as (Htm & Htn & HM & HN & _).
  split; [ | split ].
  - unfold params. rewrite run_blocks_grid_copy by assumption.
    now rewrite grid_copy_writes.
  - unfold writes, params. rewrite grid_writes_offsets.
    rewrite Z2Nat.inj_mul by lia. unfold blocks, launch_blocks.
    apply grid_footprint_partition; try assumption; lia.
  - apply grid_writes_values.
Qed.

(** X11: the grid has no block exactly when an extent of the array is 0;
    an array with at least one element always gets a grid with at least
    one block in each direction. *)
Theorem grid_empty_iff_extent_zero TILE_M TILE_N THREADS M N :
  shape_ok TILE_M TILE_N M N ->
  (dim_x (grid_dims (make_launch_params TILE_M TILE_N THREADS M N)) = 0
   <-> M = 0)
  /\ (dim_y (grid_dims (make_launch_params TILE_M TILE_N THREADS M N)) = 0
      <-> N = 0)
  /\ (launch_blocks (make_launch_params TILE_M TILE_N THREADS M N) = []
      <-> M = 0 \/ N = 0).
Proof.
  intros Hshape.
  pose proof (grid_x_exact TILE_M TILE_N THREADS M N Hshape) as Hx.
  pose proof (grid_y_exact TILE_M TILE_N THREADS M N Hshape) as Hy.
  destruct Hshape as (Htm & Htn & HM & HN & _ & Hmx & Hmy).
  pose proof (ceil_div_bounds M TILE_M HM Htm Hmx) as Hbx.
  pose proof (ceil_div_bounds N TILE_N HN Htn Hmy) as Hby.
  pose proof (ceil_div_range M TILE_M HM Htm Hmx) as Hrx.
  pose proof (ceil_div_range N TILE_N HN Htn Hmy) as Hry.
  assert (H1 : ceil_div M TILE_M = 0 <-> M = 0) by (split; nia).
  assert (H2 : ceil_div N TILE_N = 0 <-> N = 0) by (split; nia).
  unfold launch_blocks, grid_blocks. rewrite Hx, Hy.
  split; [ exact H1 | ]. split; [ exact H2 | ].
  rewrite <- H1, <- H2. split.
  - intros Hnil. apply (f_equal length) in Hnil.
    rewrite length_prod, !length_seq in Hnil. simpl in Hnil. nia.
  - intros [H0 | H0]; rewrite H0; simpl; [ reflexivity | ].
    induction (seq 0 (Z.to_nat (ceil_div M TILE_M))); [ reflexivity | exact IHl ].
Qed.

(** ** The driver on any extents *)

Section AnyShape.

Variables (TILE_M TILE_N THREADS M N iterations : Z) (dev : Device).
Hypothesis Htm : 1 <= TILE_M.
Hypothesis Htn : 1 <= TILE_N.
Hypothesis Hstaging : staging_ok TILE_M TILE_N.

Let lp := make_launch_params TILE_M TILE_N THREADS M N.
Let params := make_params TILE_M TILE_N M N.
Let size := Z.to_nat (Int32.mul M N).

Lemma any_shape_run k g :
  covered_inv size g -> launch_accepted dev k lp = true ->
  run_blocks (Z.to_nat (dim_x (block_dims lp))) params (smem_residue dev k)
    (launch_blocks lp) g = Some (grid_copy params (launch_blocks lp) g)
  /\ covered_inv size (grid_copy params (launch_blocks lp) g).
Proof.
  intros [HS HD] Hacc. split.
  - apply run_blocks_grid_copy; try assumption.
    unfold launch_accepted in Hacc.
    apply andb_prop in Hacc as [_ Hb]. apply Z.leb_le in Hb. lia.
  - destruct (grid_copy_lookup TILE_M TILE_N M N (launch_blocks lp) g 0%nat)
      as (HS' & HL' & _).
    unfold covered_inv, params. rewrite HS', HL'. now split.
Qed.

Lemma any_shape_effect ks g :
  covered_inv size g ->
  covered_inv size
    (foldl (launch_effect dev lp (grid_copy params (launch_blocks lp))) g ks).
Proof.
  revert g. induction ks as [ | k ks IH ]; intros g Hg; [ exact Hg | ].
  simpl. apply IH. unfold launch_effect.
  destruct (launch_accepted dev k lp) eqn:Hacc; [ | exact Hg ].
  now destruct (any_shape_run k g Hg Hacc).
Qed.

(** With an element count that is not negative the driver returns, in one
    of two ways. *)
Lemma any_shape_cases :
  0 <= Int32.mul M N ->
  let n := Z.to_nat iterations in
  let final := fun ks =>
    foldl (launch_effect dev lp (grid_copy params (launch_blocks lp)))
      {| d_S := init_source size; d_D := replicate size 0 |} ks in
  (Forall (fun k => sync_result dev k = cudaSuccess) (seq 0 n) /\
   copy_host_tma_load_and_store_kernel TILE_M TILE_N THREADS M N iterations dev
   = Returned
       {| status := 0;
          output := header_lines TILE_M TILE_N THREADS M N
                    ++ trial_lines (seq 0 n)
                    ++ [OutSummary
                          (verify (d_D (final (seq 0 n))) (init_source size)).1
                          (verify (d_D (final (seq 0 n))) (init_source size)).2];
          launches := n;
          units_run := units_of dev lp (seq 0 n);
          h_S := init_source size;
          h_D := d_D (final (seq 0 n));
          device := final (seq 0 n) |})
  \/
  (exists m, (m < n)%nat /\
     Forall (fun k => sync_result dev k = cudaSuccess) (seq 0 m) /\
     sync_result dev m <> cudaSuccess /\
     copy_host_tma_load_and_store_kernel TILE_M TILE_N THREADS M N iterations dev
     = Returned
         {| status := -1;
            output := header_lines TILE_M TILE_N THREADS M N
                      ++ trial_lines (seq 0 m)
                      ++ [ErrCudaRuntime (cudaGetErrorString (sync_result dev m))];
            launches := S m;
            units_run := units_of dev lp (seq 0 (S m));
            h_S := init_source size;
            h_D := replicate size 0;
            device := final (seq 0 (S m)) |}).
Proof.
  intros Hsize n final.
  pose proof (driver_cases TILE_M TILE_N THREADS M N iterations dev
                (covered_inv size) (grid_copy params (launch_blocks lp))
                any_shape_run (covered_inv0 M N) Hsize Htm Htn) as Hcases.
  exact Hcases.
Qed.

End AnyShape.

Lemma first_fault_unique (dev : Device) m m0 :
  (forall k, (k < m)%nat -> sync_result dev k = cudaSuccess) ->
  sync_result dev m <> cudaSuccess ->
  Forall (fun k => sync_result dev k = cudaSuccess) (seq 0 m0) ->
  sync_result dev m0 <> cudaSuccess ->
  m0 = m.
Proof.
  intros Hbefore Hbad Hall Hbad0. rewrite Forall_seq_lt in Hall.
  destruct (Nat.lt_trichotomy m m0) as [Hlt | [Heq | Hgt]];
    [ now specialize (Hall m Hlt) | now symmetry
    | now specialize (Hbefore m0 Hgt) ].
Qed.


(** X4: at the first synchronization that reports an error the driver
    stops: it has printed the two header lines, one line for each earlier
    pass and the error message, nothing else; it has made no launch beyond
    that pass; and, the verification being skipped, the host's copy of the
    destination is still all zeros. *)
Theorem fault_stops_driver TILE_M TILE_N THREADS M N iterations dev m :
  1 <= TILE_M -> 1 <= TILE_N -> staging_ok TILE_M TILE_N ->
  0 <= Int32.mul M N ->
  (m < Z.to_nat iterations)%nat ->
  (forall k, (k < m)%nat -> sync_result dev k = cudaSuccess) ->
  sync_result dev m <> cudaSuccess ->
  exists r,
    copy_host_tma_load_and_store_kernel TILE_M TILE_N THREADS M N iterations dev
    = Returned r
    /\ output r
       = header_lines TILE_M TILE_N THREADS M N
         ++ trial_lines (seq 0 m)
         ++ [ErrCudaRuntime (cudaGetErrorString (sync_result dev m))]
    /\ launches r = S m
    /\ h_D r = replicate (Z.to_nat (Int32.mul M N)) 0.
Proof.
  intros Htm Htn Hst Hpos Hm Hbefore Hbad.
  destruct (any_shape_cases TILE_M TILE_N THREADS M N iterations dev
              Htm Htn Hst Hpos)
    as [[Hall _] | (m0 & Hm0 & Hall & Hbad0 & Heq)].
  - rewrite Forall_seq_lt in Hall. now specialize (Hall m Hm).
  - assert (m0 = m) by now apply (first_fault_unique dev). subst m0.
    rewrite Heq. eexists. split; [ reflexivity | ]. repeat split.
Qed.

(** X13: when every synchronization succeeds the driver makes one launch
    per iteration, whether or not the earlier ones were accepted, prints
    one line per iteration, in order, between the header and the summary,
    and verifies the destination as copied back from the device. *)
Theorem trial_line_per_iteration TILE_M TILE_N THREADS M N iterations dev :
  1 <= TILE_M -> 1 <= TILE_N -> staging_ok TILE_M TILE_N ->
  0 <= Int32.mul M N ->
  (forall k, (k < Z.to_nat iterations)%nat -> sync_result dev k = cudaSuccess) ->
  exists r,
    copy_host_tma_load_and_store_kernel TILE_M TILE_N THREADS M N iterations dev
    = Returned r
    /\ output r
       = header_lines TILE_M TILE_N THREADS M N
         ++ trial_lines (seq 0 (Z.to_nat iterations))
         ++ [OutSummary (verify (h_D r) (h_S r)).1 (verify (h_D r) (h_S r)).2]
    /\ launches r = Z.to_nat iterations
    /\ h_D r = d_D (device r).
Proof.
  intros Htm Htn Hst Hpos Hsync.
  destruct (any_shape_cases TILE_M TILE_N THREADS M N iterations dev
              Htm Htn Hst Hpos)
    as [[_ Heq] | (m & Hm & _ & Hbad & _)]; [ | now specialize (Hsync m Hm) ].
  rewrite Heq. eexists. split; [ reflexivity | ]. repeat split.
Qed.

Lemma wrap_le_max x : Int32.wrap x <= Int32.max_signed.
Proof.
  unfold Int32.wrap, Int32.max_signed.
  pose proof (Z.mod_pos_bound (x + 2 ^ 31) (2 ^ 32) ltac:(lia)). lia.
Qed.

Lemma init_source_index_floats size : Forall is_index_float (init_source size).
Proof.
  unfold init_source. apply Forall_fmap, Forall_forall. intros i _.
  now exists i.
Qed.

(** A launch moves conversions of indices and zeros, nothing else. *)
Lemma grid_copy_index_floats TILE_M TILE_N M N bs g :
  Forall is_index_float (d_S g) -> Forall is_index_float (d_D g) ->
  Forall is_index_float (d_D (grid_copy (make_params TILE_M TILE_N M N) bs g)).
Proof.
  intros HS HD. apply Forall_lookup. intros p x Hx.
  destruct (grid_copy_lookup TILE_M TILE_N M N bs g p) as (_ & _ & Hp).
  rewrite Hp in Hx.
  destruct (decide (_ /\ _)) as [_ | _].
  - injection Hx as <-. destruct (d_S g !! p) as [y | ] eqn:Hy; simpl.
    + exact (proj1 (Forall_lookup _ _) HS p y Hy).
    + now exists 0%nat.
  - exact (proj1 (Forall_lookup _ _) HD p x Hx).
Qed.

Lemma launches_index_floats TILE_M TILE_N THREADS M N dev ks g :
  Forall is_index_float (d_S g) -> Forall is_index_float (d_D g) ->
  let gfin :=
    foldl (launch_effect dev (make_launch_params TILE_M TILE_N THREADS M N)
             (grid_copy (make_params TILE_M TILE_N M N)
                (launch_blocks (make_launch_params TILE_M TILE_N THREADS M N))))
      g ks in
  Forall is_index_float (d_D gfin).
Proof.
  revert g. induction ks as [ | k ks IH ]; intros g HS HD; [ exact HD | ].
  simpl. unfold launch_effect at 2.
  destruct (launch_accepted dev k _); [ | now apply IH ].
  apply IH.
  - now destruct (grid_copy_lookup TILE_M TILE_N M N
                    (launch_blocks (make_launch_params TILE_M TILE_N THREADS M N))
                    g 0%nat) as (-> & _).
  - now apply grid_copy_index_floats.
Qed.

(** X2: when the driver returns 0, the summary it prints counts no
    failure exactly when the destination it has read back equals the
    source, and exactly then counts every element a success.  Both
    vectors hold conversions of indices only, on which [==] is
    equality. *)
Theorem summary_no_failure_iff_copied TILE_M TILE_N THREADS M N iterations dev :
  1 <= TILE_M -> 1 <= TILE_N -> staging_ok TILE_M TILE_N ->
  0 <= Int32.mul M N ->
  (forall k, (k < Z.to_nat iterations)%nat -> sync_result dev k = cudaSuccess) ->
  exists r good bad,
    copy_host_tma_load_and_store_kernel TILE_M TILE_N THREADS M N iterations dev
    = Returned r
    /\ last (output r) = Some (OutSummary good bad)
    /\ Forall is_index_float (h_S r) /\ Forall is_index_float (h_D r)
    /\ (bad = 0 <-> h_D r = h_S r)
    /\ (good = Z.of_nat (length (h_D r)) <-> h_D r = h_S r).
Proof.
  intros Htm Htn Hst Hsize Hsync.
  destruct (any_shape_cases TILE_M TILE_N THREADS M N iterations dev
              Htm Htn Hst Hsize)
    as [[_ Heq] | (m & Hm & _ & Hbad & _)]; [ | now specialize (Hsync m Hm) ].
  set (size := Z.to_nat (Int32.mul M N)) in *.
  set (g0 := {| d_S := init_source size; d_D := replicate size 0 |}) in *.
  set (gfin := foldl _ g0 _) in *.
  exists
    {| status := 0;
       output := header_lines TILE_M TILE_N THREADS M N
                 ++ trial_lines (seq 0 (Z.to_nat iterations))
                 ++ [OutSummary (verify (d_D gfin) (init_source size)).1
                                (verify (d_D gfin) (init_source size)).2];
       launches := Z.to_nat iterations;
       units_run :=
         units_of dev (make_launch_params TILE_M TILE_N THREADS M N)
           (seq 0 (Z.to_nat iterations));
       h_S := init_source size;
       h_D := d_D gfin;
       device := gfin |},
    (verify (d_D gfin) (init_source size)).1,
    (verify (d_D gfin) (init_source size)).2.
  split; [ exact Heq | ]. cbn [output h_S h_D].
  split; [ apply last_after_header | ].
  split; [ apply init_source_index_floats | ].
  assert (Hzero : Forall is_index_float (replicate size 0)).
  { apply Forall_forall. intros x Hx. apply elem_of_replicate in Hx as [-> _].
    now exists 0%nat. }
  split.
  { subst gfin. apply launches_index_floats; [ apply init_source_index_floats | ].
    exact Hzero. }
  destruct (any_shape_effect TILE_M TILE_N THREADS M N dev Htm Htn Hst
              (seq 0 (Z.to_nat iterations)) g0 (covered_inv0 M N))
    as [_ Hlen].
  fold gfin in Hlen.
  assert (HlenS : length (init_source size) = size).
  { unfold init_source. now rewrite length_fmap, length_seq. }
  apply verify_zero_iff.
  - now rewrite Hlen, HlenS.
  - rewrite Hlen. unfold size. rewrite Z2Nat.id by exact Hsize.
    apply wrap_le_max.
Qed.

Lemma verify_same (l : list Z) :
  Z.of_nat (length l) <= Int32.max_signed ->
  verify l l = (Z.of_nat (length l), 0).
Proof.
  intros Hmax. unfold verify.
  destruct (verify_fold l l (seq 0 (length l)) (0, 0))
    as (H1 & H2 & H3 & H4); simpl; rewrite ?length_seq; try lia.
  simpl in *. rewrite length_seq in H3.
  destruct H4 as [_ H4]. specialize (H4 ltac:(reflexivity)).
  destruct (foldl _ _ _) as [g b]. simpl in *. f_equal; lia.
Qed.

(** X3: on a covered shape, when every synchronization succeeds and a
    launch was accepted, the summary the driver prints counts all [M * N]
    elements as successes and none as a failure. *)
Theorem success_reports_all_good TILE_M TILE_N THREADS M N iterations dev :
  shape_ok TILE_M TILE_N M N -> staging_ok TILE_M TILE_N ->
  (forall k, (k < Z.to_nat iterations)%nat -> sync_result dev k = cudaSuccess) ->
  (exists k, (k < Z.to_nat iterations)%nat /\
     launch_accepted dev k (make_launch_params TILE_M TILE_N THREADS M N) = true) ->
  exists r,
    copy_host_tma_load_and_store_kernel TILE_M TILE_N THREADS M N iterations dev
    = Returned r
    /\ last (output r) = Some (OutSummary (M * N) 0).
Proof.
  intros Hshape Hstaging Hsync Hacc. apply existsb_seq_lt in Hacc.
  destruct (covered_cases TILE_M TILE_N THREADS M N iterations dev Hshape Hstaging)
    as [[_ Heq] | (m & Hm & _ & Hbad & _)]; [ | now specialize (Hsync m Hm) ].
  rewrite Heq. eexists. split; [ reflexivity | ]. cbn [output].
  rewrite Hacc. cbn [d_D].
  assert (Hlen : length (init_source (Z.to_nat (M * N))) = Z.to_nat (M * N)).
  { unfold init_source. now rewrite length_fmap, length_seq. }
  destruct Hshape as (_ & _ & HM & HN & Hmn & _).
  rewrite verify_same by (rewrite Hlen; lia).
  rewrite Hlen, Z2Nat.id by nia. apply last_after_header.
Qed.

(** ** Launching again, and a padded staging array *)

(** X14: a second pass over the same blocks changes nothing: launching a
    grid twice leaves global memory as launching it once does, whatever
    the extents, the initial destination, the numbers of threads and the
    contents of the shared storage. *)
Theorem relaunch_idempotent TILE_M TILE_N M N nthreads nthreads'
  residue residue' bs g :
  1 <= TILE_M -> 1 <= TILE_N -> staging_ok TILE_M TILE_N ->
  (1 <= nthreads)%nat -> (1 <= nthreads')%nat ->
  exists g1,
    run_blocks nthreads (make_params TILE_M TILE_N M N) residue bs g = Some g1
    /\ run_blocks nthreads' (make_params TILE_M TILE_N M N) residue' bs g1
       = Some g1.
Proof.
  intros Htm Htn Hst Hn Hn'.
  rewrite run_blocks_grid_copy by assumption. eexists. split; [ reflexivity | ].
  rewrite run_blocks_grid_copy by assumption. f_equal.
  set (g1 := grid_copy (make_params TILE_M TILE_N M N) bs g).
  destruct (grid_copy_lookup TILE_M TILE_N M N bs g1 0%nat) as (HS & HL & _).
  apply Gmem_eq; [ exact HS | ]. apply list_eq. intros p.
  destruct (grid_copy_lookup TILE_M TILE_N M N bs g1 p) as (_ & _ & ->).
  destruct (grid_copy_lookup TILE_M TILE_N M N bs g p) as (HS1 & HL1 & HD1).
  fold g1 in HS1, HL1, HD1. rewrite HS1, HL1.
  destruct (decide (_ /\ _)) as [Hin | Hout]; [ | reflexivity ].
  rewrite HD1. first [ reflexivity | now rewrite decide_True ].
Qed.

(** Armed with a byte count that is neither zero nor what the load
    delivers, the barrier stays in its phase. *)
Lemma barrier_stuck expected delivered :
  expected <> 0 -> expected <> delivered ->
  bar_phase_done false
    (bar_complete_tx delivered
       (bar_arrive_and_expect_tx expected (bar_init 1))) = false.
Proof.
  intros H0 Hne.
  unfold bar_complete_tx, bar_arrive_and_expect_tx, bar_init, bar_settle.
  simpl. destruct (Z.eqb_spec (0 + expected) 0) as [He | He]; [ lia | ].
  simpl. destruct (Z.eqb_spec (0 + expected - delivered) 0); [ lia | ].
  reflexivity.
Qed.

Lemma run_block_stuck nthreads params residue blk g :
  (1 <= nthreads)%nat ->
  kTmaTransactionBytes params <> 0 ->
  kTmaTransactionBytes params <> tma_box_bytes (tma_box (tmaLoad params)) ->
  run_block nthreads params residue blk g = None.
Proof.
  intros Hn H0 Hne. unfold run_block.
  destruct nthreads as [ | n ]; [ lia | ].
  assert (Hts : forall t, t ∈ seq 1 n -> t <> 0%nat).
  { intros t Ht. apply elem_of_seq in Ht. lia. }
  change (seq 0 (S n)) with (0%nat :: seq 1 n).
  rewrite !fmap_cons, kernel_leader. simpl.
  rewrite followers_before_sync by exact Hts. simpl.
  now rewrite barrier_stuck.
Qed.

(** X15: when the bytes of a tile are not a multiple of the alignment of
    the staging array, the barrier is armed with more bytes than the load
    delivers and no block of the driver's plan ever gets past its wait. *)
Theorem padded_staging_hangs TILE_M TILE_N M N nthreads residue blk g :
  1 <= TILE_M -> 1 <= TILE_N -> 1 <= storage_align ->
  (sizeof_Element * (TILE_M * TILE_N)) mod storage_align <> 0 ->
  round_up (sizeof_Element * (TILE_M * TILE_N)) storage_align
    <= Int32.max_signed ->
  (1 <= nthreads)%nat ->
  tma_box_bytes (tma_box (tmaLoad (make_params TILE_M TILE_N M N)))
    < kTmaTransactionBytes (make_params TILE_M TILE_N M N)
  /\ run_block nthreads (make_params TILE_M TILE_N M N) residue blk g = None.
Proof.
  intros Htm Htn Ha Hmod Hmax Hn.
  assert (Hx : 0 < sizeof_Element * (TILE_M * TILE_N))
    by (unfold sizeof_Element; nia).
  pose proof (round_up_padded _ _ Ha (Z.lt_le_incl _ _ Hx) Hmod) as Hpad.
  assert (Hk : kTmaTransactionBytes (make_params TILE_M TILE_N M N)
               = round_up (sizeof_Element * (TILE_M * TILE_N)) storage_align).
  { unfold kTmaTransactionBytes, sizeof_ArrayEngine, make_params, layout_size.
    simpl. rewrite Nat2Z.inj_mul, !Z2Nat.id by lia.
    apply wrap_in_range. unfold Int32.in_range, Int32.min_signed. lia. }
  assert (Hb : tma_box_bytes (tma_box (tmaLoad (make_params TILE_M TILE_N M N)))
               = sizeof_Element * (TILE_M * TILE_N)).
  { unfold tma_box_bytes, make_params, layout_size. simpl.
    now rewrite Nat2Z.inj_mul, !Z2Nat.id by lia. }
  split; [ rewrite Hk, Hb; exact Hpad | ].
  apply run_block_stuck; [ exact Hn | | ]; rewrite Hk, ?Hb; lia.
Qed.

End Platform.

(** * Instances

    The theorems at concrete shapes: a 3 by 5 array cut into tiles of 2 by
    4 (both edges of the grid hold partial tiles), the staging array
    aligned to 16 bytes, 128 bytes of barrier overhead. *)

Lemma sample_shape_ok : shape_ok 2 4 3 5.
Proof. unfold shape_ok, Int32.max_signed. lia. Defined.

Lemma sample_staging_ok : staging_ok 16 2 4.
Proof.
  unfold staging_ok, Int32.max_signed, sizeof_Element.
  split; [ lia | ]. split; [ reflexivity | lia ].
Defined.

(** C1, the claim as stated fails: with [iterations = 0] the driver
    returns 0 and the destination is still all zeros. *)
Lemma round_trip_fails_without_launch :
  ~ round_trip
      (copy_host_tma_load_and_store_kernel 16 128 sample_error_string
         128 128 32 2 2 0 device_ok).
Proof.
  intros H. specialize (H _ eq_refl eq_refl). discriminate H.
Qed.

Lemma round_trip_after_launch_witness :
  shape_ok 2 4 3 5 /\ staging_ok 16 2 4
  /\ (exists k, (k < Z.to_nat 1)%nat /\
        launch_accepted device_stale k (make_launch_params 128 2 4 32 3 5) = true)
  /\ round_trip
       (copy_host_tma_load_and_store_kernel 16 128 sample_error_string
          2 4 32 3 5 1 device_stale)
  /\ exists r,
       copy_host_tma_load_and_store_kernel 16 128 sample_error_string
         2 4 32 3 5 1 device_stale = Returned r
       /\ (status r = 0 ->
           d_D (device r) = d_S (device r) /\ h_D r = h_S r
           /\ h_S r = init_source (Z.to_nat (3 * 5))
           /\ length (h_D r) = Z.to_nat (3 * 5)).
Proof.
  assert (Hacc : exists k, (k < Z.to_nat 1)%nat /\
            launch_accepted device_stale k (make_launch_params 128 2 4 32 3 5) = true).
  { exists 0%nat. split; [ simpl; lia | reflexivity ]. }
  split; [ exact sample_shape_ok | ]. split; [ exact sample_staging_ok | ].
  split; [ exact Hacc | ].
  exact (round_trip_after_launch 16 128 sample_error_string 2 4 32 3 5 1
           device_stale sample_shape_ok sample_staging_ok Hacc).
Defined.

(** C2, the claim as stated fails: the leader arms the barrier before it
    issues the load, so the load does not come before the arming. *)
Lemma load_not_before_arm :
  ~ strictly_before is_load is_arm
      (copyTMAKernel 16 (make_params 128 128 256 256) (0%nat, 0%nat) 0%nat).
Proof.
  intros H.
  specialize (H 4%nat 3%nat _ _ eq_refl eq_refl eq_refl eq_refl). lia.
Qed.

(** When the staging array is padded, the barrier is armed with more
    bytes than a load delivers and the wait never returns: a tile of 2 by
    3 elements takes 24 bytes, its array aligned to 16 bytes takes 32. *)
Example padded_tile_hangs :
  copy_host_tma_load_and_store_kernel 16 128 sample_error_string
    2 3 32 3 5 1 device_ok = Hung.
Proof. reflexivity. Qed.



(** C4, the claim as stated fails: for [M = 2147483647] and tiles of 128
    rows the sum inside [ceil_div] overflows and the grid's first extent
    is not [ceil(M / 128)]. *)
Lemma grid_overflow :
  dim_x (grid_dims (make_launch_params 128 128 128 32 2147483647 1))
  <> ceiling 2147483647 128.
Proof. vm_compute. discriminate. Qed.

Lemma grid_is_ceiling_witness :
  shape_ok 128 128 300 200
  /\ dim_x (grid_dims (make_launch_params 128 128 128 32 300 200)) = 3
  /\ dim_y (grid_dims (make_launch_params 128 128 128 32 300 200)) = 2
  /\ dim_z (grid_dims (make_launch_params 128 128 128 32 300 200)) = 1
  /\ Z.of_nat (length (launch_blocks (make_launch_params 128 128 128 32 300 200)))
     = 3 * 2
  /\ NoDup (launch_blocks (make_launch_params 128 128 128 32 300 200)).
Proof.
  assert (H : shape_ok 128 128 300 200).
  { unfold shape_ok, Int32.max_signed. lia. }
  split; [ exact H | ].
  destruct (grid_is_ceiling 128 128 128 32 300 200 H)
    as (Hx & Hy & Hz & Hlen & Hnd & _).
  repeat split; assumption.
Defined.



Lemma iterations_idempotent_witness :
  shape_ok 2 4 3 5 /\ staging_ok 16 2 4 /\ 1 < 3
  /\ (forall k, (k < Z.to_nat 3)%nat -> sync_result device_stale k = cudaSuccess)
  /\ (exists k, (k < Z.to_nat 3)%nat /\
        launch_accepted device_stale k (make_launch_params 128 2 4 32 3 5) = true)
  /\ sync_result device_ok 0%nat = cudaSuccess
  /\ launch_accepted device_ok 0%nat (make_launch_params 128 2 4 32 3 5) = true
  /\ exists r r1,
       copy_host_tma_load_and_store_kernel 16 128 sample_error_string
         2 4 32 3 5 3 device_stale = Returned r
       /\ copy_host_tma_load_and_store_kernel 16 128 sample_error_string
            2 4 32 3 5 1 device_ok = Returned r1
       /\ status r = 0 /\ status r1 = 0
       /\ d_D (device r) = d_D (device r1)
       /\ h_D r = h_D r1.
Proof.
  assert (H1 : 1 < 3) by lia.
  assert (H2 : forall k, (k < Z.to_nat 3)%nat ->
                 sync_result device_stale k = cudaSuccess) by reflexivity.
  assert (H3 : exists k, (k < Z.to_nat 3)%nat /\
            launch_accepted device_stale k (make_launch_params 128 2 4 32 3 5) = true).
  { exists 0%nat. split; [ simpl; lia | reflexivity ]. }
  split; [ exact sample_shape_ok | ]. split; [ exact sample_staging_ok | ].
  split; [ exact H1 | ]. split; [ exact H2 | ]. split; [ exact H3 | ].
  split; [ reflexivity | ]. split; [ reflexivity | ].
  exact (iterations_idempotent 16 128 sample_error_string 2 4 32 3 5 3
           device_stale device_ok sample_shape_ok sample_staging_ok H1 H2 H3
           eq_refl eq_refl).
Defined.

Lemma block_writes_own_tile_witness :
  1 <= 2 /\ 1 <= 4 /\ staging_ok 16 2 4 /\ (1 <= 32)%nat
  /\ exists g',
       run_block 16 32 (make_params 2 4 3 5) stale_residue (1%nat, 1%nat)
         {| d_S := init_source 15; d_D := replicate 15 0 |} = Some g'
       /\ d_S g' = init_source 15
       /\ d_D g' = [0; 0; 0; 0; 0; 0; 0; 0; 0; 0; 0; 0; 0; 0; 14]
       /\ block_footprint 3 5 2 4 (1%nat, 1%nat) = [14%nat].
Proof.
  assert (H1 : 1 <= 2) by lia. assert (H2 : 1 <= 4) by lia.
  assert (H3 : (1 <= 32)%nat) by lia.
  split; [ exact H1 | ]. split; [ exact H2 | ].
  split; [ exact sample_staging_ok | ]. split; [ exact H3 | ].
  destruct (block_writes_own_tile 16 2 4 3 5 32%nat stale_residue (1%nat, 1%nat)
              {| d_S := init_source 15; d_D := replicate 15 0 |}
              H1 H2 sample_staging_ok H3) as (g' & Hrun & _).
  exists g'. split; [ exact Hrun | ].
  vm_compute in Hrun. inversion Hrun. repeat split.
Defined.

Lemma status_contract_witness :
  shape_ok 2 4 3 5 /\ staging_ok 16 2 4
  /\ exists r,
       copy_host_tma_load_and_store_kernel 16 128 sample_error_string
         2 4 32 3 5 3 (device_fault_at 1 700) = Returned r
       /\ status r = -1
       /\ last (output r) = Some (ErrCudaRuntime "unspecified launch failure")
       /\ launches r = 2%nat.
Proof.
  split; [ exact sample_shape_ok | ]. split; [ exact sample_staging_ok | ].
  destruct (status_contract 16 128 sample_error_string 2 4 32 3 5 3
              (device_fault_at 1 700) sample_shape_ok sample_staging_ok)
    as (r & Hr & _ & Hfault).
  exists r. split; [ exact Hr | ].
  destruct (Hfault 1%nat) as (Hs & _ & Hlast & Hl).
  - simpl. lia.
  - intros k Hk. assert (k = 0%nat) by lia. subst k. reflexivity.
  - discriminate.
  - repeat split; assumption.
Defined.

Lemma status_ignores_verification_witness :
  shape_ok 2 4 3 5 /\ staging_ok 16 2 4
  /\ (forall k, (k < Z.to_nat 0)%nat -> sync_result device_ok k = cudaSuccess)
  /\ exists r,
       copy_host_tma_load_and_store_kernel 16 128 sample_error_string
         2 4 32 3 5 0 device_ok = Returned r
       /\ status r = 0
       /\ last (output r) = Some (OutSummary 1 14)
       /\ launches r = 0%nat /\ units_run r = 0%nat
       /\ h_D r = replicate 15 0
       /\ d_D (device r) = replicate 15 0.
Proof.
  assert (H : forall k, (k < Z.to_nat 0)%nat ->
                sync_result device_ok k = cudaSuccess) by reflexivity.
  split; [ exact sample_shape_ok | ]. split; [ exact sample_staging_ok | ].
  split; [ exact H | ].
  destruct (status_ignores_verification 16 128 sample_error_string 2 4 32 3 5 0
              device_ok sample_shape_ok sample_staging_ok H)
    as (r & Hr & Hs & Hlast & Hzero).
  exists r. split; [ exact Hr | ]. split; [ exact Hs | ].
  destruct (Hzero ltac:(lia)) as (Hl & Hu & HhD & HdD).
  vm_compute in Hr. inversion Hr; subst r. repeat split.
Defined.

(** ** Instances of the further properties *)

Lemma verify_counts_partition_witness :
  Z.of_nat (length [0; 1; 5; 3]) <= Int32.max_signed
  /\ 0 <= (verify [0; 1; 5; 3] [0; 1; 2; 3]).1
  /\ 0 <= (verify [0; 1; 5; 3] [0; 1; 2; 3]).2
  /\ (verify [0; 1; 5; 3] [0; 1; 2; 3]).1 + (verify [0; 1; 5; 3] [0; 1; 2; 3]).2
     = Z.of_nat (length [0; 1; 5; 3]).
Proof.
  assert (H : Z.of_nat (length [0; 1; 5; 3]) <= Int32.max_signed).
  { unfold Int32.max_signed. simpl. lia. }
  split; [ exact H | ].
  exact (verify_counts_partition [0; 1; 5; 3] [0; 1; 2; 3] H).
Defined.

Lemma summary_no_failure_iff_copied_witness :
  1 <= 2 /\ 1 <= 4 /\ staging_ok 16 2 4 /\ 0 <= Int32.mul 3 5
  /\ (forall k, (k < Z.to_nat 1)%nat -> sync_result device_ok k = cudaSuccess)
  /\ exists r good bad,
       copy_host_tma_load_and_store_kernel 16 128 sample_error_string
         2 4 32 3 5 1 device_ok = Returned r
       /\ last (output r) = Some (OutSummary good bad)
       /\ Forall is_index_float (h_S r) /\ Forall is_index_float (h_D r)
       /\ (bad = 0 <-> h_D r = h_S r)
       /\ (good = Z.of_nat (length (h_D r)) <-> h_D r = h_S r).
Proof.
  assert (H1 : 1 <= 2) by lia.
  assert (H2 : 1 <= 4) by lia.
  assert (H3 : 0 <= Int32.mul 3 5) by (vm_compute; discriminate).
  assert (H4 : forall k, (k < Z.to_nat 1)%nat ->
                 sync_result device_ok k = cudaSuccess) by reflexivity.
  split; [ exact H1 | ]. split; [ exact H2 | ].
  split; [ exact sample_staging_ok | ]. split; [ exact H3 | ].
  split; [ exact H4 | ].
  exact (summary_no_failure_iff_copied 16 128 sample_error_string 2 4 32 3 5 1
           device_ok H1 H2 sample_staging_ok H3 H4).
Defined.

Lemma success_reports_all_good_witness :
  shape_ok 2 4 3 5 /\ staging_ok 16 2 4
  /\ (forall k, (k < Z.to_nat 2)%nat -> sync_result device_stale k = cudaSuccess)
  /\ (exists k, (k < Z.to_nat 2)%nat /\
        launch_accepted device_stale k (make_launch_params 128 2 4 32 3 5) = true)
  /\ exists r,
       copy_host_tma_load_and_store_kernel 16 128 sample_error_string
         2 4 32 3 5 2 device_stale = Returned r
       /\ last (output r) = Some (OutSummary (3 * 5) 0).
Proof.
  assert (H1 : forall k, (k < Z.to_nat 2)%nat ->
                 sync_result device_stale k = cudaSuccess) by reflexivity.
  assert (H2 : exists k, (k < Z.to_nat 2)%nat /\
            launch_accepted device_stale k (make_launch_params 128 2 4 32 3 5) = true).
  { exists 0%nat. split; [ simpl; lia | reflexivity ]. }
  split; [ exact sample_shape_ok | ]. split; [ exact sample_staging_ok | ].
  split; [ exact H1 | ]. split; [ exact H2 | ].
  exact (success_reports_all_good 16 128 sample_error_string 2 4 32 3 5 2
           device_stale sample_shape_ok sample_staging_ok H1 H2).
Defined.

Lemma fault_stops_driver_witness :
  1 <= 2 /\ 1 <= 4 /\ staging_ok 16 2 4 /\ 0 <= Int32.mul 3 5
  /\ (1 < Z.to_nat 3)%nat
  /\ (forall k, (k < 1)%nat -> sync_result (device_fault_at 1 700) k = cudaSuccess)
  /\ sync_result (device_fault_at 1 700) 1%nat <> cudaSuccess
  /\ exists r,
       copy_host_tma_load_and_store_kernel 16 128 sample_error_string
         2 4 32 3 5 3 (device_fault_at 1 700) = Returned r
       /\ output r
          = [OutBanner; OutSmemSize 160; OutTrial 0;
             ErrCudaRuntime "unspecified launch failure"]
       /\ launches r = 2%nat
       /\ h_D r = replicate 15 0.
Proof.
  assert (H1 : 1 <= 2) by lia. assert (H2 : 1 <= 4) by lia.
  assert (H3 : 0 <= Int32.mul 3 5) by (vm_compute; discriminate).
  assert (H4 : (1 < Z.to_nat 3)%nat) by (simpl; lia).
  assert (H5 : forall k, (k < 1)%nat ->
                 sync_result (device_fault_at 1 700) k = cudaSuccess).
  { intros k Hk. assert (k = 0%nat) by lia. subst k. reflexivity. }
  assert (H6 : sync_result (device_fault_at 1 700) 1%nat <> cudaSuccess)
    by discriminate.
  split; [ exact H1 | ]. split; [ exact H2 | ].
  split; [ exact sample_staging_ok | ]. split; [ exact H3 | ].
  split; [ exact H4 | ]. split; [ exact H5 | ]. split; [ exact H6 | ].
  exact (fault_stops_driver 16 128 sample_error_string 2 4 32 3 5 3
           (device_fault_at 1 700) 1%nat H1 H2 sample_staging_ok H3 H4 H5 H6).
Defined.


Lemma grid_refines_block_copies_witness :
  1 <= 2 /\ 1 <= 4 /\ staging_ok 16 2 4 /\ (1 <= 64)%nat /\ (1 <= 1)%nat
  /\ run_blocks 16 64 (make_params 2 4 3 5) (fun _ => stale_residue)
       (grid_blocks 2 2) {| d_S := init_source 15; d_D := replicate 15 0 |}
     = Some (grid_copy (make_params 2 4 3 5) (grid_blocks 2 2)
               {| d_S := init_source 15; d_D := replicate 15 0 |})
  /\ run_blocks 16 1 (make_params 2 4 3 5) (fun _ => no_residue)
       (grid_blocks 2 2) {| d_S := init_source 15; d_D := replicate 15 0 |}
     = run_blocks 16 64 (make_params 2 4 3 5) (fun _ => stale_residue)
         (grid_blocks 2 2) {| d_S := init_source 15; d_D := replicate 15 0 |}.
Proof.
  assert (H1 : 1 <= 2) by lia. assert (H2 : 1 <= 4) by lia.
  assert (H3 : (1 <= 64)%nat) by lia. assert (H4 : (1 <= 1)%nat) by lia.
  split; [ exact H1 | ]. split; [ exact H2 | ].
  split; [ exact sample_staging_ok | ]. split; [ exact H3 | ].
  split; [ exact H4 | ].
  exact (grid_refines_block_copies 16 2 4 3 5 64%nat 1%nat
           (fun _ => stale_residue) (fun _ => no_residue) (grid_blocks 2 2)
           {| d_S := init_source 15; d_D := replicate 15 0 |}
           H1 H2 sample_staging_ok H3 H4).
Defined.

Lemma block_order_irrelevant_witness :
  1 <= 2 /\ 1 <= 4 /\ staging_ok 16 2 4 /\ (1 <= 32)%nat
  /\ [(0, 0); (1, 1)]%nat ≡ₚ [(1, 1); (0, 0)]%nat
  /\ run_blocks 16 32 (make_params 2 4 3 5) (fun _ => stale_residue)
       [(0, 0); (1, 1)]%nat {| d_S := init_source 15; d_D := replicate 15 0 |}
     = run_blocks 16 32 (make_params 2 4 3 5) (fun _ => stale_residue)
         [(1, 1); (0, 0)]%nat {| d_S := init_source 15; d_D := replicate 15 0 |}.
Proof.
  assert (H1 : 1 <= 2) by lia. assert (H2 : 1 <= 4) by lia.
  assert (H3 : (1 <= 32)%nat) by lia.
  assert (H4 : [(0, 0); (1, 1)]%nat ≡ₚ [(1, 1); (0, 0)]%nat)
    by apply Permutation_swap.
  split; [ exact H1 | ]. split; [ exact H2 | ].
  split; [ exact sample_staging_ok | ]. split; [ exact H3 | ].
  split; [ exact H4 | ].
  exact (block_order_irrelevant 16 2 4 3 5 32%nat (fun _ => stale_residue)
           [(0, 0); (1, 1)]%nat [(1, 1); (0, 0)]%nat
           {| d_S := init_source 15; d_D := replicate 15 0 |}
           H1 H2 sample_staging_ok H3 H4).
Defined.

Lemma one_leader_per_block_witness :
  (1 <= 64)%nat
  /\ issued is_load (block_programs 16 (make_params 2 4 3 5) (1, 1)%nat 64) = 1%nat
  /\ issued is_store (block_programs 16 (make_params 2 4 3 5) (1, 1)%nat 64) = 1%nat
  /\ issued is_wait (block_programs 16 (make_params 2 4 3 5) (1, 1)%nat 64) = 64%nat.
Proof.
  assert (H : (1 <= 64)%nat) by lia.
  split; [ exact H | ].
  destruct (one_leader_per_block 16 (make_params 2 4 3 5) (1, 1)%nat 64%nat H)
    as (_ & _ & Hl & Hs & _ & _ & _ & Hw & _).
  repeat split; assumption.
Defined.

Lemma grid_empty_iff_extent_zero_witness :
  shape_ok 2 4 3 5
  /\ (dim_x (grid_dims (make_launch_params 128 2 4 32 3 5)) = 0 <-> 3 = 0)
  /\ (dim_y (grid_dims (make_launch_params 128 2 4 32 3 5)) = 0 <-> 5 = 0)
  /\ (launch_blocks (make_launch_params 128 2 4 32 3 5) = [] <-> 3 = 0 \/ 5 = 0).
Proof.
  split; [ exact sample_shape_ok | ].
  exact (grid_empty_iff_extent_zero 128 2 4 32 3 5 sample_shape_ok).
Defined.

Lemma launch_writes_each_element_once_witness :
  shape_ok 2 4 3 5 /\ staging_ok 16 2 4 /\ (1 <= 32)%nat
  /\ run_blocks 16 32 (make_params 2 4 3 5) (fun _ => no_residue)
       (launch_blocks (make_launch_params 128 2 4 32 3 5))
       {| d_S := init_source 15; d_D := replicate 15 0 |}
     = Some {| d_S := init_source 15;
               d_D := apply_writes
                        (grid_writes (make_params 2 4 3 5)
                           (launch_blocks (make_launch_params 128 2 4 32 3 5))
                           {| d_S := init_source 15; d_D := replicate 15 0 |})
                        (replicate 15 0) |}
  /\ (grid_writes (make_params 2 4 3 5)
        (launch_blocks (make_launch_params 128 2 4 32 3 5))
        {| d_S := init_source 15; d_D := replicate 15 0 |}).*1
     ≡ₚ seq 0 15.
Proof.
  assert (H : (1 <= 32)%nat) by lia.
  split; [ exact sample_shape_ok | ]. split; [ exact sample_staging_ok | ].
  split; [ exact H | ].
  destruct (launch_writes_each_element_once 16 128 2 4 32 3 5 32%nat
              (fun _ => no_residue)
              {| d_S := init_source 15; d_D := replicate 15 0 |}
              sample_shape_ok sample_staging_ok H) as (Hrun & Hperm & _).
  split; [ exact Hrun | exact Hperm ].
Defined.

Lemma trial_line_per_iteration_witness :
  1 <= 2 /\ 1 <= 4 /\ staging_ok 16 2 4 /\ 0 <= Int32.mul 3 5
  /\ (forall k, (k < Z.to_nat 2)%nat -> sync_result device_ok k = cudaSuccess)
  /\ exists r,
       copy_host_tma_load_and_store_kernel 16 128 sample_error_string
         2 4 32 3 5 2 device_ok = Returned r
       /\ output r
          = header_lines 128 2 4 32 3 5
            ++ trial_lines (seq 0 (Z.to_nat 2))
            ++ [OutSummary (verify (h_D r) (h_S r)).1 (verify (h_D r) (h_S r)).2]
       /\ launches r = Z.to_nat 2
       /\ h_D r = d_D (device r).
Proof.
  assert (H1 : 1 <= 2) by lia. assert (H2 : 1 <= 4) by lia.
  assert (H3 : 0 <= Int32.mul 3 5) by (vm_compute; discriminate).
  assert (H4 : forall k, (k < Z.to_nat 2)%nat ->
                 sync_result device_ok k = cudaSuccess) by reflexivity.
  split; [ exact H1 | ]. split; [ exact H2 | ].
  split; [ exact sample_staging_ok | ]. split; [ exact H3 | ].
  split; [ exact H4 | ].
  exact (trial_line_per_iteration 16 128 sample_error_string 2 4 32 3 5 2
           device_ok H1 H2 sample_staging_ok H3 H4).
Defined.

Lemma relaunch_idempotent_witness :
  1 <= 2 /\ 1 <= 4 /\ staging_ok 16 2 4 /\ (1 <= 32)%nat /\ (1 <= 64)%nat
  /\ exists g1,
       run_blocks 16 32 (make_params 2 4 3 5) (fun _ => no_residue)
         (grid_blocks 2 2) {| d_S := init_source 15; d_D := replicate 15 0 |}
       = Some g1
       /\ run_blocks 16 64 (make_params 2 4 3 5) (fun _ => stale_residue)
            (grid_blocks 2 2) g1 = Some g1.
Proof.
  assert (H1 : 1 <= 2) by lia. assert (H2 : 1 <= 4) by lia.
  assert (H3 : (1 <= 32)%nat) by lia. assert (H4 : (1 <= 64)%nat) by lia.
  split; [ exact H1 | ]. split; [ exact H2 | ].
  split; [ exact sample_staging_ok | ]. split; [ exact H3 | ].
  split; [ exact H4 | ].
  exact (relaunch_idempotent 16 2 4 3 5 32%nat 64%nat (fun _ => no_residue)
           (fun _ => stale_residue) (grid_blocks 2 2)
           {| d_S := init_source 15; d_D := replicate 15 0 |}
           H1 H2 sample_staging_ok H3 H4).
Defined.

Lemma padded_staging_hangs_witness :
  1 <= 2 /\ 1 <= 3 /\ 1 <= 16
  /\ (sizeof_Element * (2 * 3)) mod 16 <> 0
  /\ round_up (sizeof_Element * (2 * 3)) 16 <= Int32.max_signed
  /\ (1 <= 32)%nat
  /\ tma_box_bytes (tma_box (tmaLoad (make_params 2 3 3 5)))
     < kTmaTransactionBytes 16 (make_params 2 3 3 5)
  /\ run_block 16 32 (make_params 2 3 3 5) no_residue (0, 0)%nat
       {| d_S := init_source 15; d_D := replicate 15 0 |} = None.
Proof.
  assert (H1 : 1 <= 2) by lia. assert (H2 : 1 <= 3) by lia.
  assert (H3 : 1 <= 16) by lia.
  assert (H4 : (sizeof_Element * (2 * 3)) mod 16 <> 0)
    by (vm_compute; discriminate).
  assert (H5 : round_up (sizeof_Element * (2 * 3)) 16 <= Int32.max_signed)
    by (vm_compute; discriminate).
  assert (H6 : (1 <= 32)%nat) by lia.
  split; [ exact H1 | ]. split; [ exact H2 | ]. split; [ exact H3 | ].
  split; [ exact H4 | ]. split; [ exact H5 | ]. split; [ exact H6 | ].
  exact (padded_staging_hangs 16 2 3 3 5 32%nat no_residue (0, 0)%nat
           {| d_S := init_source 15; d_D := replicate 15 0 |}
           H1 H2 H3 H4 H5 H6).
Defined.
